(** * Augmented binary search tree and binary heap of data_structure_bugs.cpp

    A shallow embedding of the two containers of
    [buggy_cpp_samples/data_structure_bugs/data_structure_bugs.cpp]
    (classes [BinarySearchTree] and [PriorityQueue]) together with their
    invariant checkers, and the properties of the design document stated
    over that embedding.

    Conventions.
    - A C++ [int] is a [Z].  The containers never do arithmetic on keys or
      heap values, only comparisons; the counters ([total_nodes],
      [subtree_size], [height]) are incremented or summed and stay far from
      the 32-bit limits on every input considered here, so no wrap-around
      is written out (signed overflow is undefined in C++ anyway).
    - A [std::shared_ptr<BSTreeNode>] is a [node_ptr]: either [nullptr] or a
      node.  The tree owns its nodes exclusively, so in-place mutation of a
      node is modelled by rebuilding it.
    - A [std::vector<int>] is a [list Z], read with stdpp's total lookup
      and written with stdpp's list insert; a [size_t] index is a [nat].
    - Console output is modelled for [print_tree] only, as the list of
      lines written; the progress messages of the other operations are
      left out. *)

From Stdlib Require Import ZArith Lia List Bool Sorted.
From stdpp Require Import base list strings pretty gmap.
From Equations Require Import Equations.

Local Open Scope Z_scope.

(** [INT_MIN] and [INT_MAX] of a 32-bit [int]. *)
Definition INT_MIN : Z := - 2 ^ 31.
Definition INT_MAX : Z := 2 ^ 31 - 1.

(* ===================================================================== *)
(** * The binary search tree *)
(* ===================================================================== *)

Module BST.

(** [class BSTreeNode], behind a [shared_ptr]. *)
Inductive node_ptr : Type :=
| nullptr
| Node (data : Z) (left right : node_ptr) (height subtree_size : Z).

(** [BSTreeNode(int value)]: a fresh leaf has [height = 1] and
    [subtree_size = 1]. *)
Definition make_node (value : Z) : node_ptr := Node value nullptr nullptr 1 1.

(** [node ? node->subtree_size : 0] *)
Definition size_or_0 (node : node_ptr) : Z :=
  match node with nullptr => 0 | Node _ _ _ _ s => s end.

(** [node ? node->height : 0] *)
Definition height_or_0 (node : node_ptr) : Z :=
  match node with nullptr => 0 | Node _ _ _ h _ => h end.

(** The tail of [insert_recursive] (source lines 85-94): the four
    assignments to [subtree_size] and the assignment to [height]. *)
Definition insert_size (l r : node_ptr) : Z :=
  let s := 1 in
  let s := s + size_or_0 l in
  let s := s + size_or_0 r in
  s + 1.

Definition insert_height (l r : node_ptr) : Z :=
  let left_height := height_or_0 l in
  let right_height := height_or_0 r in
  left_height + right_height.

Fixpoint insert_recursive (node : node_ptr) (value : Z) : node_ptr :=
  match node with
  | nullptr => make_node value
  | Node d l r h s =>
      if value <? d then
        let l' := insert_recursive l value in
        Node d l' r (insert_height l' r) (insert_size l' r)
      else if value >? d then
        let r' := insert_recursive r value in
        Node d l r' (insert_height l r') (insert_size l r')
      else node
  end.

(** [find_min]: follow [left] links while there is one.  The source
    dereferences its argument, so it is only ever called on a node; the
    model returns [nullptr] on [nullptr]. *)
Fixpoint find_min (node : node_ptr) : node_ptr :=
  match node with
  | nullptr => nullptr
  | Node _ l _ _ _ =>
      match l with
      | nullptr => node
      | Node _ _ _ _ _ => find_min l
      end
  end.

(** [node->data] (0 on [nullptr], which the source never reads). *)
Definition data_of (node : node_ptr) : Z :=
  match node with nullptr => 0 | Node d _ _ _ _ => d end.

(** [remove_recursive]: neither [height] nor [subtree_size] is written. *)
Fixpoint remove_recursive (node : node_ptr) (value : Z) : node_ptr :=
  match node with
  | nullptr => nullptr
  | Node d l r h s =>
      if value <? d then Node d (remove_recursive l value) r h s
      else if value >? d then Node d l (remove_recursive r value) h s
      else
        match l, r with
        | nullptr, _ => r
        | _, nullptr => l
        | _, _ =>
            let min_node := find_min r in
            Node (data_of min_node) l (remove_recursive r (data_of min_node)) h s
        end
  end.

Fixpoint search_recursive (node : node_ptr) (value : Z) : bool :=
  match node with
  | nullptr => false
  | Node d l r _ _ =>
      if value =? d then true
      else if value <? d then search_recursive l value
      else search_recursive r value
  end.

Fixpoint check_bst_recursive (node : node_ptr) (min_val max_val : Z) : bool :=
  match node with
  | nullptr => true
  | Node d l r _ _ =>
      if (d <=? min_val) || (d >=? max_val) then false
      else check_bst_recursive l min_val d && check_bst_recursive r d max_val
  end.

Fixpoint check_subtree_sizes (node : node_ptr) : bool :=
  match node with
  | nullptr => true
  | Node d l r _ s =>
      let left_size := size_or_0 l in
      let right_size := size_or_0 r in
      let expected_size := 1 + left_size + right_size in
      if negb (s =? expected_size) then false
      else check_subtree_sizes l && check_subtree_sizes r
  end.

Fixpoint count_nodes (node : node_ptr) : Z :=
  match node with
  | nullptr => 0
  | Node _ l r _ _ => 1 + count_nodes l + count_nodes r
  end.

(** [class BinarySearchTree] *)
Record BinarySearchTree : Type := mkTree {
  root : node_ptr;
  total_nodes : Z
}.

(** [BinarySearchTree()] *)
Definition empty_tree : BinarySearchTree := mkTree nullptr 0.

Definition insert (t : BinarySearchTree) (value : Z) : BinarySearchTree :=
  mkTree (insert_recursive (root t) value) (total_nodes t + 1).

Definition search (t : BinarySearchTree) (value : Z) : bool :=
  search_recursive (root t) value.

Definition remove (t : BinarySearchTree) (value : Z) : BinarySearchTree :=
  mkTree (remove_recursive (root t) value) (total_nodes t - 1).

(** The three verdicts of [check_bst_invariant], in the order the source
    computes them. *)
Record audit_report : Type := mkReport {
  is_valid_bst : bool;
  sizes_correct : bool;
  count_correct : bool
}.

Definition audit (t : BinarySearchTree) : audit_report :=
  mkReport (check_bst_recursive (root t) INT_MIN INT_MAX)
           (check_subtree_sizes (root t))
           (count_nodes (root t) =? total_nodes t).

Definition check_bst_invariant (t : BinarySearchTree) : bool :=
  let r := audit t in
  is_valid_bst r && sizes_correct r && count_correct r.

(** Client programs: sequences of mutations from the empty tree. *)
Inductive op : Type :=
| Insert (value : Z)
| Remove (value : Z).

Definition apply_op (t : BinarySearchTree) (o : op) : BinarySearchTree :=
  match o with
  | Insert v => insert t v
  | Remove v => remove t v
  end.

Definition run (ops : list op) : BinarySearchTree :=
  fold_left apply_op ops empty_tree.

Definition insert_all (values : list Z) : BinarySearchTree :=
  fold_left insert values empty_tree.

(** [print_recursive]: the lines written to [std::cout], one per
    [std::endl], first to last.  An [int] is written in decimal, with a
    leading minus sign when negative. *)
Fixpoint print_recursive (node : node_ptr) (prefix : string) (is_last : bool)
  : list string :=
  match node with
  | nullptr => []
  | Node d l r h s =>
      let line :=
        (prefix +:+ (if is_last then "└── " else "├── ")
         +:+ pretty d +:+ " (size:" +:+ pretty s
         +:+ ", height:" +:+ pretty h +:+ ")")%string in
      let has (n : node_ptr) := match n with nullptr => false | _ => true end in
      let prefix' := (prefix +:+ (if is_last then "    " else "│   "))%string in
      line ::
      (if has l || has r then
         (if has r then print_recursive r prefix' (negb (has l)) else [])
         ++ (if has l then print_recursive l prefix' true else [])
       else [])
  end.

(** [print_tree] *)
Definition print_tree (t : BinarySearchTree) : list string :=
  "Tree structure:"%string :: print_recursive (root t) "" true.

End BST.

(* ===================================================================== *)
(** * The priority queue *)
(* ===================================================================== *)

Module PQ.

(** [heap[i]] for an index in range.  Out of range the source has no
    defined behaviour and never reads; the total lookup then yields the
    inhabitant of [Z]. *)
Definition at_ (heap : list Z) (i : nat) : Z := heap !!! i.

(** [std::swap(heap[i], heap[j])] *)
Definition swap (heap : list Z) (i j : nat) : list Z :=
  <[j := at_ heap i]> (<[i := at_ heap j]> heap).

(** [is_max_heap ? (a > b) : (a < b)], the test of both sift loops. *)
Definition should_swap (is_max_heap : bool) (a b : Z) : bool :=
  if is_max_heap then a >? b else a <? b.

(** [is_max_heap ? (p >= c) : (p <= c)], the test of the checker. *)
Definition valid (is_max_heap : bool) (p c : Z) : bool :=
  if is_max_heap then p >=? c else p <=? c.

(** [heap_up]: recursion on the index, which strictly decreases. *)
Equations? heap_up (is_max_heap : bool) (heap : list Z) (index : nat) : list Z
  by wf index lt :=
  heap_up is_max_heap heap O := heap;
  heap_up is_max_heap heap (S k)
    with should_swap is_max_heap (at_ heap (S k)) (at_ heap ((S k - 1) / 2)%nat) := {
    | true := heap_up is_max_heap (swap heap (S k) ((S k - 1) / 2)%nat) ((S k - 1) / 2)%nat;
    | false := heap
    }.
Proof.
  change ((k - 0) / 2 < S k)%nat.
  pose proof (Nat.Div0.div_le_upper_bound (k - 0) 2 k). lia.
Qed.

(** The first half of [heap_down]: the index of the element that is to
    become the parent among [index] and its in-range children. *)
Definition heap_down_target (is_max_heap : bool) (heap : list Z) (index : nat) : nat :=
  let left_child := (2 * index + 1)%nat in
  let right_child := (2 * index + 2)%nat in
  let target := index in
  let target :=
    if (left_child <? length heap)%nat then
      if should_swap is_max_heap (at_ heap left_child) (at_ heap target)
      then left_child else target
    else target in
  let target :=
    if (right_child <? length heap)%nat then
      if should_swap is_max_heap (at_ heap right_child) (at_ heap target)
      then right_child else target
    else target in
  target.

(** [heap_down]: the target, when it is not [index], is a child in range,
    so the distance to the end of the vector strictly decreases. *)
Equations? heap_down (is_max_heap : bool) (heap : list Z) (index : nat) : list Z
  by wf (length heap - index)%nat lt :=
  heap_down is_max_heap heap index
    with decide (heap_down_target is_max_heap heap index = index) := {
    | right _ :=
        heap_down is_max_heap
          (swap heap index (heap_down_target is_max_heap heap index))
          (heap_down_target is_max_heap heap index);
    | left _ := heap
    }.
Proof.
  unfold swap. rewrite !length_insert.
  revert n. unfold heap_down_target.
  repeat case_match; rewrite ?Nat.ltb_lt in *; lia.
Qed.

(** [insert]: [push_back], then [heap_up] from the last index. *)
Definition insert (is_max_heap : bool) (heap : list Z) (value : Z) : list Z :=
  let heap := heap ++ [value] in
  heap_up is_max_heap heap (length heap - 1).

(** [heap.back()] and [heap.pop_back()] *)
Definition back (heap : list Z) : Z := at_ heap (length heap - 1).
Definition pop_back (heap : list Z) : list Z := take (length heap - 1) heap.

(** [throw std::runtime_error("Heap is empty")] *)
Inductive error : Type := EmptyContainer.

(** [extract_top]: the exception, or the returned value and the heap
    left behind. *)
Definition extract_top (is_max_heap : bool) (heap : list Z) : error + Z * list Z :=
  if (length heap =? 0)%nat then inl EmptyContainer
  else
    let top := at_ heap 0 in
    let heap := <[0%nat := back heap]> heap in
    let heap := pop_back heap in
    let heap :=
      if negb (length heap =? 0)%nat then
        if (3 <? length heap)%nat then heap_down is_max_heap heap 0 else heap
      else heap in
    inr (top, heap).

(** One iteration of the loop of [check_heap_property]. *)
Definition check_index (is_max_heap : bool) (heap : list Z) (i : nat) : bool :=
  let left_child := (2 * i + 1)%nat in
  let right_child := (2 * i + 2)%nat in
  (if (left_child <? length heap)%nat
   then valid is_max_heap (at_ heap i) (at_ heap left_child) else true)
  &&
  (if (right_child <? length heap)%nat
   then valid is_max_heap (at_ heap i) (at_ heap right_child) else true).

(** [check_heap_property]: the loop over every index, leaving with [false]
    at the first violation. *)
Definition check_heap_property (is_max_heap : bool) (heap : list Z) : bool :=
  forallb (check_index is_max_heap heap) (seq 0 (length heap)).

(** [PriorityQueue(max_heap)] followed by a run of [insert] calls. *)
Definition insert_all (is_max_heap : bool) (values : list Z) : list Z :=
  fold_left (insert is_max_heap) values [].

(** [n] successive [extract_top] calls: the values returned, in order, and
    the heap left; the run stops at the first exception. *)
Fixpoint extract_n (is_max_heap : bool) (n : nat) (heap : list Z) : list Z * list Z :=
  match n with
  | O => ([], heap)
  | S n' =>
      match extract_top is_max_heap heap with
      | inl _ => ([], heap)
      | inr (top, heap') =>
          let '(tops, rest) := extract_n is_max_heap n' heap' in
          (top :: tops, rest)
      end
  end.

End PQ.

(* ===================================================================== *)
(** * Properties the design document names *)
(* ===================================================================== *)

(** The index of the parent of slot [i] (the inverse of [2i+1], [2i+2]). *)
Definition parent (i : nat) : nat := ((i - 1) / 2)%nat.

(** Heap-order property of the design document: every element that has a
    parent compares no better than that parent, under the ordering the
    heap was built with. *)
Definition heap_ordered (is_max_heap : bool) (heap : list Z) : Prop :=
  ∀ i, (0 < i < length heap)%nat →
       PQ.valid is_max_heap (PQ.at_ heap (parent i)) (PQ.at_ heap i) = true.

(** The state [heap_up] works on: everything is in order except possibly
    slot [j] against its parent, and the children of [j] are already in
    order against the parent of [j]. *)
Definition up_inv (is_max_heap : bool) (heap : list Z) (j : nat) : Prop :=
  (∀ i, (0 < i < length heap)%nat → i ≠ j →
        PQ.valid is_max_heap (PQ.at_ heap (parent i)) (PQ.at_ heap i) = true)
  ∧ ((0 < j)%nat → ∀ i, (0 < i < length heap)%nat → parent i = j →
        PQ.valid is_max_heap (PQ.at_ heap (parent j)) (PQ.at_ heap i) = true).

(** The state [heap_down] works on: everything is in order except possibly
    slot [j] against its children, and the children of [j] are already in
    order against the parent of [j]. *)
Definition down_inv (is_max_heap : bool) (heap : list Z) (j : nat) : Prop :=
  (∀ i, (0 < i < length heap)%nat → parent i ≠ j →
        PQ.valid is_max_heap (PQ.at_ heap (parent i)) (PQ.at_ heap i) = true)
  ∧ ((0 < j)%nat → ∀ i, (0 < i < length heap)%nat → parent i = j →
        PQ.valid is_max_heap (PQ.at_ heap (parent j)) (PQ.at_ heap i) = true).

(** [keys_all P node]: every key stored under [node] satisfies [P]. *)
Fixpoint keys_all (P : Z → Prop) (node : BST.node_ptr) : Prop :=
  match node with
  | BST.nullptr => True
  | BST.Node d l r _ _ => P d ∧ keys_all P l ∧ keys_all P r
  end.

(** BST ordering invariant of the design document: at every node, the keys
    of the left subtree are strictly smaller and the keys of the right
    subtree strictly greater than the key of the node. *)
Fixpoint bst (node : BST.node_ptr) : Prop :=
  match node with
  | BST.nullptr => True
  | BST.Node d l r _ _ =>
      keys_all (λ k, k < d) l ∧ keys_all (λ k, d < k) r ∧ bst l ∧ bst r
  end.

(** The rule the design document gives for the cached fields of one node:
    [subtree_size = 1 + size(left) + size(right)] and
    [height = 1 + max(height(left), height(right))], an absent child
    counting 0. *)
Definition node_fields_ok (l r : BST.node_ptr) (h s : Z) : bool :=
  (s =? 1 + BST.size_or_0 l + BST.size_or_0 r)
  && (h =? 1 + Z.max (BST.height_or_0 l) (BST.height_or_0 r)).

(** ... and for every node of a tree. *)
Fixpoint cached_fields_ok (node : BST.node_ptr) : bool :=
  match node with
  | BST.nullptr => true
  | BST.Node _ l r h s =>
      node_fields_ok l r h s && cached_fields_ok l && cached_fields_ok r
  end.

(** The node graph without the cached fields: keys and links only. *)
Fixpoint shape (node : BST.node_ptr) : BST.node_ptr :=
  match node with
  | BST.nullptr => BST.nullptr
  | BST.Node d l r _ _ => BST.Node d (shape l) (shape r) 0 0
  end.

(** The values a client program inserts. *)
Definition inserted (ops : list BST.op) : list Z :=
  flat_map (λ o, match o with BST.Insert v => [v] | BST.Remove _ => [] end) ops.


(** The set of keys a client program leaves behind, read as set
    operations: an insertion adds its value, a removal takes it out. *)
Definition key_set (ops : list BST.op) : gset Z :=
  fold_left (λ keys o, match o with
                       | BST.Insert v => {[v]} ∪ keys
                       | BST.Remove v => keys ∖ {[v]}
                       end) ops ∅.

(** The number of nodes without children. *)
Fixpoint leaves (node : BST.node_ptr) : Z :=
  match node with
  | BST.nullptr => 0
  | BST.Node _ BST.nullptr BST.nullptr _ _ => 1
  | BST.Node _ l r _ _ => leaves l + leaves r
  end.

(** The cached fields as insertions alone leave them: a node without
    children still has the fields of its constructor, and a node with a
    child has the fields [insert_recursive] wrote when it last passed. *)
Fixpoint insert_built (node : BST.node_ptr) : Prop :=
  match node with
  | BST.nullptr => True
  | BST.Node _ l r h s =>
      (l = BST.nullptr ∧ r = BST.nullptr ∧ h = 1 ∧ s = 1)
      ∨ ((l ≠ BST.nullptr ∨ r ≠ BST.nullptr)
         ∧ h = BST.insert_height l r ∧ s = BST.insert_size l r
         ∧ insert_built l ∧ insert_built r)
  end.

(** The returned values are in extraction order for the heap's ordering:
    each is no worse than the next. *)
Definition in_order (is_max_heap : bool) (values : list Z) : Prop :=
  Sorted (λ a b, PQ.valid is_max_heap a b = true) values.

(* ===================================================================== *)
(** * The priority queue: sifting up *)
(* ===================================================================== *)

Section HeapFacts.

Variable is_max_heap : bool.

Lemma valid_trans a b c :
  PQ.valid is_max_heap a b = true → PQ.valid is_max_heap b c = true →
  PQ.valid is_max_heap a c = true.
Proof. unfold PQ.valid; destruct is_max_heap; lia. Qed.

Lemma should_swap_valid a b :
  PQ.should_swap is_max_heap a b = true → PQ.valid is_max_heap a b = true.
Proof. unfold PQ.valid, PQ.should_swap; destruct is_max_heap; lia. Qed.

Lemma should_swap_false_valid a b :
  PQ.should_swap is_max_heap a b = false → PQ.valid is_max_heap b a = true.
Proof. unfold PQ.valid, PQ.should_swap; destruct is_max_heap; lia. Qed.

Lemma length_swap (heap : list Z) i j : length (PQ.swap heap i j) = length heap.
Proof. unfold PQ.swap. by rewrite !length_insert. Qed.

Lemma at_swap_l (heap : list Z) i j :
  (i < length heap)%nat → (j < length heap)%nat →
  PQ.at_ (PQ.swap heap i j) i = PQ.at_ heap j.
Proof.
  intros Hi Hj. unfold PQ.swap, PQ.at_.
  destruct (decide (i = j)) as [->|Hne].
  - rewrite list_lookup_total_insert_eq; [done | by rewrite length_insert].
  - rewrite list_lookup_total_insert_ne by done.
    by rewrite list_lookup_total_insert_eq.
Qed.

Lemma at_swap_r (heap : list Z) i j :
  (j < length heap)%nat →
  PQ.at_ (PQ.swap heap i j) j = PQ.at_ heap i.
Proof.
  intros Hj. unfold PQ.swap, PQ.at_.
  rewrite list_lookup_total_insert_eq; [done | by rewrite length_insert].
Qed.

Lemma at_swap_ne (heap : list Z) i j k :
  k ≠ i → k ≠ j → PQ.at_ (PQ.swap heap i j) k = PQ.at_ heap k.
Proof.
  intros Hi Hj. unfold PQ.swap, PQ.at_.
  by rewrite !list_lookup_total_insert_ne.
Qed.

Lemma parent_lt i : (0 < i)%nat → (parent i < i)%nat.
Proof.
  intros Hi. unfold parent.
  pose proof (Nat.Div0.div_le_upper_bound (i - 1) 2 (i - 1)). lia.
Qed.

Lemma parent_spec i p :
  (0 < i)%nat → parent i = p ↔ (i = 2 * p + 1 ∨ i = 2 * p + 2)%nat.
Proof.
  intros Hi. unfold parent.
  pose proof (Nat.div_mod_eq (i - 1) 2) as Hdm.
  pose proof (Nat.mod_upper_bound (i - 1) 2). lia.
Qed.

End HeapFacts.

Section SiftUp.

Variable is_max_heap : bool.

(** A step of [heap_up] that swaps re-establishes the working state one
    level higher. *)
Lemma up_inv_swap (heap : list Z) j :
  (0 < j < length heap)%nat →
  PQ.should_swap is_max_heap (PQ.at_ heap j) (PQ.at_ heap (parent j)) = true →
  up_inv is_max_heap heap j →
  up_inv is_max_heap (PQ.swap heap j (parent j)) (parent j).
Proof.
  intros Hj Hsw [Ha Hb].
  pose proof (parent_lt j (proj1 Hj)) as Hpj.
  assert (Hjp : PQ.at_ (PQ.swap heap j (parent j)) j = PQ.at_ heap (parent j))
    by (apply at_swap_l; lia).
  assert (Hpp : PQ.at_ (PQ.swap heap j (parent j)) (parent j) = PQ.at_ heap j)
    by (apply at_swap_r; lia).
  split.
  - intros i Hi Hne. rewrite length_swap in Hi.
    pose proof (parent_lt i (proj1 Hi)) as Hpi.
    destruct (decide (i = j)) as [->|Hij].
    + rewrite Hjp, Hpp. by apply should_swap_valid.
    + rewrite (at_swap_ne heap j (parent j) i) by done.
      destruct (decide (parent i = j)) as [Hpij|Hpij].
      * rewrite Hpij, Hjp. apply Hb; [lia | done | done].
      * destruct (decide (parent i = parent j)) as [Heq|Hneq].
        -- rewrite Heq, Hpp.
           apply valid_trans with (PQ.at_ heap (parent j)).
           ++ by apply should_swap_valid.
           ++ rewrite <- Heq. by apply Ha.
        -- rewrite at_swap_ne by done. by apply Ha.
  - intros Hp i Hi Hpi. rewrite length_swap in Hi.
    pose proof (parent_lt (parent j) Hp) as Hppj.
    rewrite (at_swap_ne heap j (parent j) (parent (parent j))) by lia.
    assert (Hgp : PQ.valid is_max_heap (PQ.at_ heap (parent (parent j)))
                    (PQ.at_ heap (parent j)) = true) by (apply Ha; lia).
    destruct (decide (i = j)) as [->|Hij].
    + by rewrite Hjp.
    + pose proof (parent_lt i (proj1 Hi)).
      rewrite at_swap_ne by lia.
      apply valid_trans with (PQ.at_ heap (parent j)); [done|].
      rewrite <- Hpi. by apply Ha.
Qed.

(** [heap_up] started in the working state ends in a heap. *)
Lemma heap_up_ordered (heap : list Z) j :
  (j < length heap)%nat → up_inv is_max_heap heap j →
  heap_ordered is_max_heap (PQ.heap_up is_max_heap heap j).
Proof.
  funelim (PQ.heap_up is_max_heap heap j); intros Hlen Hinv.
  - intros i Hi. apply Hinv; [done | lia].
  - fold (parent (S k)) in *.
    pose proof (parent_lt (S k) ltac:(lia)).
    apply H.
    + rewrite length_swap. lia.
    + apply up_inv_swap; [lia | done | done].
  - fold (parent (S k)) in *.
    intros i Hi. destruct (decide (i = S k)) as [->|Hne].
    + by apply should_swap_false_valid.
    + by apply Hinv.
Qed.

(** Appending to a heap gives the working state at the new last slot. *)
Lemma up_inv_push_back (heap : list Z) value :
  heap_ordered is_max_heap heap →
  up_inv is_max_heap (heap ++ [value]) (length heap).
Proof.
  intros Hh. split.
  - intros i Hi Hne. rewrite length_app in Hi. simpl in Hi.
    pose proof (parent_lt i (proj1 Hi)).
    unfold PQ.at_. rewrite !lookup_total_app_l by lia. apply Hh. lia.
  - intros _ i Hi Hpi. rewrite length_app in Hi. simpl in Hi.
    pose proof (parent_lt i (proj1 Hi)). lia.
Qed.

Lemma insert_ordered (heap : list Z) value :
  heap_ordered is_max_heap heap →
  heap_ordered is_max_heap (PQ.insert is_max_heap heap value).
Proof.
  intros Hh. unfold PQ.insert.
  replace (length (heap ++ [value]) - 1)%nat with (length heap)
    by (rewrite length_app; simpl; lia).
  apply heap_up_ordered.
  - rewrite length_app. simpl. lia.
  - by apply up_inv_push_back.
Qed.

(** [heap_up] only swaps: length and contents are kept. *)
Lemma swap_perm (heap : list Z) i j :
  (i < length heap)%nat → (j < length heap)%nat → PQ.swap heap i j ≡ₚ heap.
Proof.
  intros Hi Hj. unfold PQ.swap, PQ.at_.
  destruct (lookup_lt_is_Some_2 heap i Hi) as [x Hx].
  destruct (lookup_lt_is_Some_2 heap j Hj) as [y Hy].
  rewrite (list_lookup_total_correct _ _ _ Hx), (list_lookup_total_correct _ _ _ Hy).
  by apply Permutation_insert_swap.
Qed.

Lemma heap_up_perm (heap : list Z) j :
  (j < length heap)%nat → PQ.heap_up is_max_heap heap j ≡ₚ heap.
Proof.
  funelim (PQ.heap_up is_max_heap heap j); intros Hlen; [done | | done].
  fold (parent (S k)) in *.
  pose proof (parent_lt (S k) ltac:(lia)).
  rewrite H by (rewrite length_swap; lia).
  apply swap_perm; lia.
Qed.

Lemma insert_perm (heap : list Z) value :
  PQ.insert is_max_heap heap value ≡ₚ value :: heap.
Proof.
  unfold PQ.insert. rewrite heap_up_perm.
  - by rewrite Permutation_app_comm.
  - rewrite length_app. simpl. lia.
Qed.

End SiftUp.

(* ===================================================================== *)
(** * The priority queue: what the checker decides *)
(* ===================================================================== *)

Section HeapChecker.

Variable is_max_heap : bool.

Lemma check_index_true (heap : list Z) i :
  PQ.check_index is_max_heap heap i = true ↔
  ((2 * i + 1 < length heap)%nat →
     PQ.valid is_max_heap (PQ.at_ heap i) (PQ.at_ heap (2 * i + 1)) = true)
  ∧ ((2 * i + 2 < length heap)%nat →
     PQ.valid is_max_heap (PQ.at_ heap i) (PQ.at_ heap (2 * i + 2)) = true).
Proof.
  unfold PQ.check_index. rewrite andb_true_iff.
  destruct (Nat.ltb_spec (2 * i + 1) (length heap));
    destruct (Nat.ltb_spec (2 * i + 2) (length heap)); intuition lia.
Qed.

(** The checker passes exactly on the sequences that are heaps. *)
Lemma check_heap_property_true (heap : list Z) :
  PQ.check_heap_property is_max_heap heap = true ↔ heap_ordered is_max_heap heap.
Proof.
  unfold PQ.check_heap_property. rewrite forallb_forall. split.
  - intros Hall i Hi.
    pose proof (parent_lt i (proj1 Hi)) as Hp.
    assert (Hin : In (parent i) (seq 0 (length heap))) by (apply in_seq; lia).
    apply Hall, check_index_true in Hin. destruct Hin as [Hl Hr].
    destruct (proj1 (parent_spec i (parent i) (proj1 Hi)) eq_refl) as [Hc|Hc].
    + rewrite Hc at 2. apply Hl. lia.
    + rewrite Hc at 2. apply Hr. lia.
  - intros Hh i _. apply check_index_true. split; intros Hc.
    + replace i with (parent (2 * i + 1)) at 1
        by (apply parent_spec; lia).
      apply Hh. lia.
    + replace i with (parent (2 * i + 2)) at 1
        by (apply parent_spec; lia).
      apply Hh. lia.
Qed.

End HeapChecker.

(* ===================================================================== *)
(** * The priority queue: sifting down and extraction *)
(* ===================================================================== *)

Section SiftDown.

Variable is_max_heap : bool.

Lemma heap_down_target_range (heap : list Z) index :
  PQ.heap_down_target is_max_heap heap index = index
  ∨ (index < PQ.heap_down_target is_max_heap heap index < length heap)%nat.
Proof.
  unfold PQ.heap_down_target.
  repeat case_match; rewrite ?Nat.ltb_lt in *; lia.
Qed.

(** [heap_down] only swaps slots in range. *)
Lemma heap_down_perm (heap : list Z) index :
  (index < length heap)%nat → PQ.heap_down is_max_heap heap index ≡ₚ heap.
Proof.
  funelim (PQ.heap_down is_max_heap heap index); intros Hlen; [done|].
  destruct (heap_down_target_range heap index) as [?|Ht]; [done|].
  rewrite H by (rewrite length_swap; lia).
  apply swap_perm; lia.
Qed.

(** The target is the slot, among [index] and its children in range,
    whose element is to be the parent of the other two. *)
Lemma heap_down_target_best (heap : list Z) index :
  let t := PQ.heap_down_target is_max_heap heap index in
  PQ.valid is_max_heap (PQ.at_ heap t) (PQ.at_ heap index) = true
  ∧ ((2 * index + 1 < length heap)%nat →
     PQ.valid is_max_heap (PQ.at_ heap t) (PQ.at_ heap (2 * index + 1)) = true)
  ∧ ((2 * index + 2 < length heap)%nat →
     PQ.valid is_max_heap (PQ.at_ heap t) (PQ.at_ heap (2 * index + 2)) = true).
Proof.
  unfold PQ.heap_down_target, PQ.should_swap, PQ.valid.
  destruct is_max_heap;
    repeat case_match; rewrite ?Nat.ltb_lt, ?Nat.ltb_ge in *; lia.
Qed.

(** A step of [heap_down] that swaps re-establishes the working state one
    level lower. *)
Lemma down_inv_swap (heap : list Z) j :
  (j < length heap)%nat →
  PQ.heap_down_target is_max_heap heap j ≠ j →
  down_inv is_max_heap heap j →
  down_inv is_max_heap (PQ.swap heap j (PQ.heap_down_target is_max_heap heap j))
    (PQ.heap_down_target is_max_heap heap j).
Proof.
  intros Hj Hne [Ha Hb].
  destruct (heap_down_target_range heap j) as [?|Ht]; [done|].
  destruct (heap_down_target_best heap j) as (Hbj & Hbl & Hbr).
  set (t := PQ.heap_down_target is_max_heap heap j) in *.
  assert (Hpt : parent t = j).
  { apply parent_spec; [lia|]. revert Hne. subst t.
    unfold PQ.heap_down_target. repeat case_match; lia. }
  assert (Hjt : PQ.at_ (PQ.swap heap j t) j = PQ.at_ heap t)
    by (apply at_swap_l; lia).
  assert (Htt : PQ.at_ (PQ.swap heap j t) t = PQ.at_ heap j)
    by (apply at_swap_r; lia).
  split.
  - intros i Hi Hpi. rewrite length_swap in Hi.
    pose proof (parent_lt i (proj1 Hi)) as Hlt.
    destruct (decide (i = t)) as [->|Hit].
    + by rewrite Hpt, Hjt, Htt.
    + destruct (decide (i = j)) as [->|Hij].
      * rewrite Hjt, at_swap_ne by lia. apply Hb; [lia | lia | done].
      * rewrite (at_swap_ne heap j t i) by done.
        destruct (decide (parent i = j)) as [Hpij|Hpij].
        -- rewrite Hpij, Hjt.
           destruct (proj1 (parent_spec i j (proj1 Hi)) Hpij) as [->| ->].
           ++ apply Hbl. lia.
           ++ apply Hbr. lia.
        -- rewrite at_swap_ne by done. by apply Ha.
  - intros _ i Hi Hpi. rewrite length_swap in Hi.
    pose proof (parent_lt i (proj1 Hi)) as Hlt.
    rewrite Hpt, Hjt, at_swap_ne by lia.
    rewrite <- Hpi. apply Ha; [done | lia].
Qed.

(** [heap_down] started in the working state ends in a heap. *)
Lemma heap_down_ordered (heap : list Z) index :
  (index < length heap)%nat → down_inv is_max_heap heap index →
  heap_ordered is_max_heap (PQ.heap_down is_max_heap heap index).
Proof.
  funelim (PQ.heap_down is_max_heap heap index); intros Hlen Hinv.
  - destruct (heap_down_target_best heap index) as (_ & Hbl & Hbr).
    rewrite e in Hbl, Hbr. destruct Hinv as [Ha _].
    intros i Hi. destruct (decide (parent i = index)) as [Hp|Hp].
    + rewrite Hp.
      destruct (proj1 (parent_spec i index (proj1 Hi)) Hp) as [->| ->].
      * apply Hbl. lia.
      * apply Hbr. lia.
    + by apply Ha.
  - destruct (heap_down_target_range heap index) as [?|Ht]; [done|].
    apply H.
    + rewrite length_swap. lia.
    + by apply down_inv_swap.
Qed.

(** Moving the last element of a heap to the root gives the working state
    at slot 0. *)
Lemma down_inv_relocated top mid lst :
  heap_ordered is_max_heap (top :: mid ++ [lst]) →
  down_inv is_max_heap (lst :: mid) 0.
Proof.
  intros Hh. split; [|lia].
  intros i Hi Hp. simpl in Hi.
  pose proof (parent_lt i (proj1 Hi)) as Hlt.
  assert (Hlen : length (top :: mid ++ [lst]) = S (S (length mid)))
    by (simpl; rewrite length_app; simpl; lia).
  specialize (Hh i ltac:(lia)).
  unfold PQ.at_ in *.
  rewrite !lookup_total_cons_ne_0 in Hh by lia.
  rewrite !lookup_total_app_l in Hh by lia.
  by rewrite !lookup_total_cons_ne_0 by lia.
Qed.

Lemma extract_top_nil : PQ.extract_top is_max_heap [] = inl PQ.EmptyContainer.
Proof. reflexivity. Qed.

Lemma extract_top_singleton top :
  PQ.extract_top is_max_heap [top] = inr (top, []).
Proof. reflexivity. Qed.

(** The two assignments before the sift: the last element lands in slot 0
    and the vector loses its last slot. *)
Lemma relocate_last (top : Z) mid lst :
  PQ.pop_back (<[0%nat := PQ.back (top :: mid ++ [lst])]> (top :: mid ++ [lst]))
  = lst :: mid.
Proof.
  unfold PQ.back, PQ.pop_back, PQ.at_. simpl.
  rewrite length_app, Nat.add_1_r. simpl.
  rewrite lookup_total_app_r by lia. rewrite Nat.sub_diag. simpl.
  f_equal. by rewrite take_app_length.
Qed.

Lemma extract_top_cons top mid lst :
  PQ.extract_top is_max_heap (top :: mid ++ [lst])
  = inr (top, if (3 <? length (lst :: mid))%nat
              then PQ.heap_down is_max_heap (lst :: mid) 0
              else lst :: mid).
Proof.
  unfold PQ.extract_top.
  change (length (top :: mid ++ [lst]) =? 0)%nat with false. cbv iota.
  rewrite relocate_last. reflexivity.
Qed.

(** Where [extract_top] does sift (more than four elements before the
    call) or has nothing to sift (one or two elements), it leaves a heap.
    Heaps of three and four elements are the ones it can break. *)
Lemma extract_top_ordered (heap : list Z) top heap' :
  heap_ordered is_max_heap heap →
  (length heap ≤ 2 ∨ 4 < length heap)%nat →
  PQ.extract_top is_max_heap heap = inr (top, heap') →
  heap_ordered is_max_heap heap'.
Proof.
  intros Hh Hlen. destruct heap as [|x rest]; [done|].
  destruct rest as [|lst mid _] using rev_ind.
  - rewrite extract_top_singleton. intros [= _ <-] i Hi. simpl in Hi. lia.
  - rewrite extract_top_cons.
    simpl in Hlen. rewrite length_app in Hlen. simpl in Hlen.
    destruct (Nat.ltb_spec 3 (length (lst :: mid))) as [Hbig|Hsmall];
      intros [= _ <-].
    + apply heap_down_ordered; [simpl; lia|].
      by apply (down_inv_relocated x).
    + simpl in Hsmall. intros i Hi. simpl in Hi. lia.
Qed.


End SiftDown.

(* ===================================================================== *)
(** * The priority queue: the claims *)
(* ===================================================================== *)

(** Claim C8.  [extract_top] raises the empty-container error exactly on
    the sequence of zero elements.  On a non-empty heap it returns the
    element of slot 0; the last element is moved into slot 0 and the
    sequence loses one slot, so a heap of [n] elements is left with [n - 1]:
    the heap left behind is that relocated sequence, either as it is or
    after [heap_down] from slot 0, and in both cases holds the same
    elements. *)
Theorem extract_top_spec (is_max_heap : bool) :
  (∀ heap, PQ.extract_top is_max_heap heap = inl PQ.EmptyContainer
           ↔ length heap = 0%nat)
  ∧ (∀ top, PQ.extract_top is_max_heap [top] = inr (top, []))
  ∧ (∀ top mid lst, ∃ heap',
        PQ.extract_top is_max_heap (top :: mid ++ [lst]) = inr (top, heap')
        ∧ length heap' = (length (top :: mid ++ [lst]) - 1)%nat
        ∧ heap' ≡ₚ lst :: mid
        ∧ (heap' = lst :: mid ∨ heap' = PQ.heap_down is_max_heap (lst :: mid) 0)).
Proof.
  split; [|split].
  - intros [|top rest]; [done|].
    split; [|done].
    unfold PQ.extract_top. simpl. discriminate.
  - apply extract_top_singleton.
  - intros top mid lst. eexists. split; [apply extract_top_cons|].
    assert (Hp : (if (3 <? length (lst :: mid))%nat
                  then PQ.heap_down is_max_heap (lst :: mid) 0
                  else lst :: mid) ≡ₚ lst :: mid).
    { case_match; [|done]. apply heap_down_perm. simpl. lia. }
    split; [|split; [done|]].
    + rewrite Hp. simpl. rewrite length_app. simpl. lia.
    + case_match; auto.
Qed.

(** Claim C9.  Whatever values are inserted into a fresh heap, max-first
    or min-first, the heap-order check passes after every single insertion
    (that is, on the heap built from every prefix of the sequence); the
    heap then holds exactly the values inserted so far, so every size is
    covered. *)
Theorem insert_audit_passes (is_max_heap : bool) (values : list Z) (n : nat) :
  PQ.check_heap_property is_max_heap (PQ.insert_all is_max_heap (take n values)) = true
  ∧ PQ.insert_all is_max_heap (take n values) ≡ₚ take n values.
Proof.
  unfold PQ.insert_all.
  induction (take n values) as [|v vs IH] using rev_ind.
  - done.
  - rewrite fold_left_app. simpl. destruct IH as [IHc IHp]. split.
    + apply check_heap_property_true, insert_ordered.
      by apply check_heap_property_true.
    + rewrite insert_perm, IHp. by rewrite Permutation_app_comm.
Qed.

(** Claim C2, at the input that refutes it.  The max-first heap built by
    inserting 3, 2, 1 passes the check; [extract_top] returns 3 and leaves
    [1; 2] (two elements, so [heap_down] is not called), on which the check
    fails.  The same happens on a min-first heap.  ([extract_top_ordered]
    shows that the order is kept where the sift does run.) *)
Theorem extract_top_skips_heap_down :
  PQ.insert_all true [3; 2; 1] = [3; 2; 1]
  ∧ PQ.check_heap_property true [3; 2; 1] = true
  ∧ PQ.extract_top true [3; 2; 1] = inr (3, [1; 2])
  ∧ PQ.check_heap_property true [1; 2] = false
  ∧ PQ.heap_down true [1; 2] 0 = [2; 1]
  ∧ PQ.insert_all false [1; 2; 3] = [1; 2; 3]
  ∧ PQ.extract_top false [1; 2; 3] = inr (1, [3; 2])
  ∧ PQ.check_heap_property false [3; 2] = false.
Proof. vm_compute. repeat split. Qed.

(** Claim C6, at the scenario it names.  The eight inserts give a heap
    that passes the check, but the eight extractions return
    [15; 12; 10; 8; 7; 2; 5; 3]: once three elements are left the root is
    no longer sifted down, and 2 comes out before 5 and 3.  Likewise the
    max-first heap built from 3, 2, 1 returns 3, 1, 2 and the min-first heap
    built from 1, 2, 3 returns 1, 3, 2. *)
Theorem scenario_extract_order :
  PQ.insert_all true [5; 10; 3; 8; 15; 2; 12; 7] = [15; 10; 12; 7; 8; 2; 3; 5]
  ∧ PQ.check_heap_property true (PQ.insert_all true [5; 10; 3; 8; 15; 2; 12; 7]) = true
  ∧ PQ.extract_n true 8 (PQ.insert_all true [5; 10; 3; 8; 15; 2; 12; 7])
    = ([15; 12; 10; 8; 7; 2; 5; 3], [])
  ∧ fst (PQ.extract_n true 8 (PQ.insert_all true [5; 10; 3; 8; 15; 2; 12; 7]))
    ≠ [15; 12; 10; 8; 7; 5; 3; 2]
  ∧ PQ.extract_n true 5 (PQ.insert_all true [5; 10; 3; 8; 15; 2; 12; 7])
    = ([15; 12; 10; 8; 7], [2; 3; 5])
  ∧ PQ.extract_n true 3 (PQ.insert_all true [3; 2; 1]) = ([3; 1; 2], [])
  ∧ PQ.extract_n false 3 (PQ.insert_all false [1; 2; 3]) = ([1; 3; 2], []).
Proof. vm_compute. repeat split; discriminate. Qed.

(* ===================================================================== *)
(** * The tree: ordering *)
(* ===================================================================== *)

Section TreeOrdering.

Import BST.

Lemma keys_all_impl (P Q : Z → Prop) node :
  (∀ k, P k → Q k) → keys_all P node → keys_all Q node.
Proof.
  intros HPQ. induction node as [|d l IHl r IHr h s]; simpl; [done|].
  intros (? & ? & ?). auto.
Qed.

Lemma keys_all_and (P Q : Z → Prop) node :
  keys_all P node → keys_all Q node → keys_all (λ k, P k ∧ Q k) node.
Proof.
  induction node as [|d l IHl r IHr h s]; simpl; [done|].
  intros (? & ? & ?) (? & ? & ?). auto.
Qed.

Lemma keys_all_insert (P : Z → Prop) node value :
  P value → keys_all P node → keys_all P (insert_recursive node value).
Proof.
  intros HP. induction node as [|d l IHl r IHr h s]; simpl.
  - auto.
  - intros (? & ? & ?). repeat case_match; simpl; auto.
Qed.

Lemma bst_insert node value : bst node → bst (insert_recursive node value).
Proof.
  induction node as [|d l IHl r IHr h s]; simpl.
  - auto.
  - intros (Hl & Hr & Hbl & Hbr). repeat case_match; simpl; [| |done].
    + repeat split; auto. apply keys_all_insert; [lia | done].
    + repeat split; auto. apply keys_all_insert; [lia | done].
Qed.

(** The key [find_min] returns is a key of the subtree ... *)
Lemma find_min_keys_all (P : Z → Prop) d l r h s :
  keys_all P (Node d l r h s) → P (data_of (find_min (Node d l r h s))).
Proof.
  revert d r h s. induction l as [|dl ll IHll rl _ hl sl]; intros d r h s.
  - simpl. tauto.
  - intros (_ & Hl & _). change (P (data_of (find_min (Node dl ll rl hl sl)))).
    by apply IHll.
Qed.

(** ... and, in an ordered tree, a lower bound of all its keys. *)
Lemma find_min_lower_bound d l r h s :
  bst (Node d l r h s) →
  keys_all (λ k, data_of (find_min (Node d l r h s)) ≤ k) (Node d l r h s).
Proof.
  revert d r h s. induction l as [|dl ll IHll rl _ hl sl]; intros d r h s.
  - simpl. intros (_ & Hr & _). repeat split; [lia | ].
    eapply keys_all_impl; [|exact Hr]. simpl. lia.
  - intros (Hl & Hr & Hbl & Hbr).
    change (find_min (Node d (Node dl ll rl hl sl) r h s))
      with (find_min (Node dl ll rl hl sl)).
    pose proof (IHll dl rl hl sl Hbl) as IH.
    pose proof (find_min_keys_all (λ k, k < d) dl ll rl hl sl Hl) as Hlt.
    cbv beta in Hlt.
    set (m := data_of (find_min (Node dl ll rl hl sl))) in *.
    split; [lia|]. split; [exact IH|].
    eapply keys_all_impl; [|exact Hr]. simpl. lia.
Qed.

Lemma keys_all_remove (P : Z → Prop) node value :
  keys_all P node → keys_all P (remove_recursive node value).
Proof.
  revert value. induction node as [|d l IHl r IHr h s]; intros value; simpl.
  - auto.
  - intros (Hd & Hl & Hr).
    destruct (value <? d); [simpl; auto|].
    destruct (value >? d); [simpl; auto|].
    destruct l as [|dl ll rl hl sl]; [done|].
    destruct r as [|dr lr rr hr sr]; [done|].
    split; [|split].
    + by apply (find_min_keys_all P).
    + done.
    + by apply IHr.
Qed.

(** After [remove_recursive], the removed value is no longer a key. *)
Lemma remove_recursive_gone node value :
  bst node → keys_all (λ k, k ≠ value) (remove_recursive node value).
Proof.
  revert value. induction node as [|d l IHl r IHr h s]; intros value; simpl.
  - auto.
  - intros (Hl & Hr & Hbl & Hbr).
    destruct (Z.ltb_spec value d); [|destruct (Z.gtb_spec value d)].
    + simpl. split; [lia|]. split; [by apply IHl|].
      eapply keys_all_impl; [|exact Hr]. simpl. lia.
    + simpl. split; [lia|]. split; [|by apply IHr].
      eapply keys_all_impl; [|exact Hl]. simpl. lia.
    + assert (value = d) as -> by lia.
      destruct l as [|dl ll rl hl sl].
      { eapply keys_all_impl; [|exact Hr]. simpl. lia. }
      destruct r as [|dr lr rr hr sr].
      { eapply keys_all_impl; [|exact Hl]. simpl. lia. }
      pose proof (find_min_keys_all _ _ _ _ _ _ Hr) as Hm. cbv beta in Hm.
      set (m := data_of (find_min (Node dr lr rr hr sr))) in *.
      split; [lia|]. split.
      * eapply keys_all_impl; [|exact Hl]. simpl. lia.
      * apply keys_all_remove.
        eapply keys_all_impl; [|exact Hr]. simpl. lia.
Qed.

Lemma bst_remove node value : bst node → bst (remove_recursive node value).
Proof.
  revert value. induction node as [|d l IHl r IHr h s]; intros value; simpl.
  - auto.
  - intros (Hl & Hr & Hbl & Hbr).
    destruct (value <? d); [|destruct (value >? d)].
    + simpl. repeat split; auto. by apply keys_all_remove.
    + simpl. repeat split; auto. by apply keys_all_remove.
    + destruct l as [|dl ll rl hl sl]; [done|].
      destruct r as [|dr lr rr hr sr]; [done|].
      pose proof (find_min_keys_all _ _ _ _ _ _ Hr) as Hm. cbv beta in Hm.
      pose proof (find_min_lower_bound _ _ _ _ _ Hbr) as Hlow.
      pose proof (remove_recursive_gone (Node dr lr rr hr sr)
                    (data_of (find_min (Node dr lr rr hr sr))) Hbr) as Hgone.
      set (m := data_of (find_min (Node dr lr rr hr sr))) in *.
      split; [|split; [|split]].
      * eapply keys_all_impl; [|exact Hl]. simpl. lia.
      * apply (keys_all_remove _ _ m) in Hlow.
        eapply keys_all_impl; [|exact (keys_all_and _ _ _ Hlow Hgone)].
        simpl. lia.
      * done.
      * by apply IHr.
Qed.

(** Every state a client program can reach is ordered. *)
Lemma run_bst ops : bst (root (run ops)).
Proof.
  unfold run.
  assert (Hgen : ∀ t, bst (root t) → bst (root (fold_left apply_op ops t))).
  { induction ops as [|o ops IH]; intros t Ht; simpl; [done|].
    apply IH. destruct o; simpl.
    - by apply bst_insert.
    - by apply bst_remove. }
  by apply Hgen.
Qed.

(** What the ordering walk decides: order, and every key strictly
    between the two bounds it starts from. *)
Lemma check_bst_recursive_true node min_val max_val :
  check_bst_recursive node min_val max_val = true ↔
  bst node ∧ keys_all (λ k, min_val < k < max_val) node.
Proof.
  revert min_val max_val.
  induction node as [|d l IHl r IHr h s]; intros min_val max_val; simpl.
  - tauto.
  - destruct (Z.leb_spec d min_val); simpl.
    { split; [done|]. intros (_ & ? & _). lia. }
    destruct (Z.geb_spec d max_val); simpl.
    { split; [done|]. intros (_ & ? & _). lia. }
    rewrite andb_true_iff, IHl, IHr. split.
    + intros ((Hbl & Hkl) & (Hbr & Hkr)). repeat split; try done; try lia.
      * eapply keys_all_impl; [|exact Hkl]. simpl. lia.
      * eapply keys_all_impl; [|exact Hkr]. simpl. lia.
      * eapply keys_all_impl; [|exact Hkl]. simpl. lia.
      * eapply keys_all_impl; [|exact Hkr]. simpl. lia.
    + intros ((Hl & Hr & Hbl & Hbr) & (Hd & Hkl & Hkr)).
      repeat split; try done.
      * eapply keys_all_impl; [|exact (keys_all_and _ _ _ Hl Hkl)].
        simpl. lia.
      * eapply keys_all_impl; [|exact (keys_all_and _ _ _ Hr Hkr)].
        simpl. lia.
Qed.

End TreeOrdering.

(* ===================================================================== *)
(** * The tree: search, insertion and removal *)
(* ===================================================================== *)

Section TreeOperations.

Import BST.

(** [search_recursive] reads keys and links only. *)
Lemma search_recursive_shape node value :
  search_recursive (shape node) value = search_recursive node value.
Proof.
  induction node as [|d l IHl r IHr h s]; simpl; [done|].
  by rewrite IHl, IHr.
Qed.

Lemma search_recursive_absent node value :
  keys_all (λ k, k ≠ value) node → search_recursive node value = false.
Proof.
  induction node as [|d l IHl r IHr h s]; simpl; [done|].
  intros (Hd & Hl & Hr).
  destruct (Z.eqb_spec value d); [congruence|].
  destruct (value <? d); auto.
Qed.

(** Inserting a key that [search] finds follows the path of the search and
    stops at the node found: keys and links stay as they are. *)
Lemma insert_recursive_present_shape node value :
  search_recursive node value = true →
  shape (insert_recursive node value) = shape node.
Proof.
  induction node as [|d l IHl r IHr h s]; simpl; [done|].
  destruct (Z.eqb_spec value d) as [->|Hne].
  - intros _. by rewrite Z.ltb_irrefl, Z.gtb_ltb, Z.ltb_irrefl.
  - destruct (Z.ltb_spec value d).
    + intros Hs. simpl. by rewrite IHl.
    + intros Hs. rewrite Z.gtb_ltb.
      destruct (Z.ltb_spec d value); [|lia].
      simpl. by rewrite IHr.
Qed.

(** Inserting a key that [search] does not find adds one node. *)
Lemma insert_recursive_absent_count node value :
  search_recursive node value = false →
  count_nodes (insert_recursive node value) = count_nodes node + 1.
Proof.
  induction node as [|d l IHl r IHr h s]; simpl; [done|].
  destruct (Z.eqb_spec value d) as [->|Hne]; [done|].
  destruct (Z.ltb_spec value d).
  - intros Hs. simpl. rewrite IHl by done. lia.
  - intros Hs. rewrite Z.gtb_ltb.
    destruct (Z.ltb_spec d value); [|lia].
    simpl. rewrite IHr by done. lia.
Qed.

(** After an insertion [search] finds the inserted key and, besides it,
    what it found before. *)
Lemma search_insert_recursive node value k :
  search_recursive (insert_recursive node value) k
  = (k =? value) || search_recursive node k.
Proof.
  induction node as [|d l IHl r IHr h s]; simpl.
  - destruct (Z.eqb_spec k value); simpl; [done|].
    by destruct (k <? value).
  - destruct (Z.ltb_spec value d); [|rewrite Z.gtb_ltb; destruct (Z.ltb_spec d value)];
      simpl.
    + rewrite IHl. destruct (Z.eqb_spec k d), (Z.eqb_spec k value); simpl; try done; try lia.
      destruct (Z.ltb_spec k d); [done|lia].
    + rewrite IHr. destruct (Z.eqb_spec k d), (Z.eqb_spec k value); simpl; try done; try lia.
      destruct (Z.ltb_spec k d); [lia|done].
    + assert (value = d) as -> by lia.
      destruct (Z.eqb_spec k d); done.
Qed.

(** Removing a key that [search] does not find rebuilds every node on the
    path as it was. *)
Lemma remove_recursive_absent node value :
  search_recursive node value = false → remove_recursive node value = node.
Proof.
  induction node as [|d l IHl r IHr h s]; simpl; [done|].
  destruct (Z.eqb_spec value d) as [->|Hne]; [done|].
  destruct (Z.ltb_spec value d).
  - intros Hs. by rewrite IHl.
  - intros Hs. rewrite Z.gtb_ltb.
    destruct (Z.ltb_spec d value); [|lia]. by rewrite IHr.
Qed.

(** Removing a key that [search] finds in an ordered tree unlinks exactly
    one node. *)
Lemma remove_recursive_present_count node value :
  bst node → search_recursive node value = true →
  count_nodes (remove_recursive node value) = count_nodes node - 1.
Proof.
  revert value. induction node as [|d l IHl r IHr h s]; intros value; simpl.
  - done.
  - intros (Hl & Hr & Hbl & Hbr).
    destruct (Z.eqb_spec value d) as [->|Hne].
    + intros _. rewrite Z.ltb_irrefl, Z.gtb_ltb, Z.ltb_irrefl.
      destruct l as [|dl ll rl hl sl]; [simpl; lia|].
      destruct r as [|dr lr rr hr sr]; [simpl; lia|].
      set (m := data_of (find_min (Node dr lr rr hr sr))).
      assert (Hm : search_recursive (Node dr lr rr hr sr) m = true).
      { clear -Hbr. subst m. revert dr rr hr sr Hbr.
        induction lr as [|d' l' IHl' r' _ h' s']; intros dr rr hr sr Hbr.
        - simpl. by rewrite Z.eqb_refl.
        - destruct Hbr as (Hl & _ & Hbl & _).
          pose proof (find_min_keys_all _ _ _ _ _ _ Hl) as Hlt. cbv beta in Hlt.
          change (find_min (Node dr (Node d' l' r' h' s') rr hr sr))
            with (find_min (Node d' l' r' h' s')).
          set (m := data_of (find_min (Node d' l' r' h' s'))) in *.
          change (search_recursive (Node dr (Node d' l' r' h' s') rr hr sr) m)
            with (if m =? dr then true
                  else if m <? dr then search_recursive (Node d' l' r' h' s') m
                  else search_recursive rr m).
          destruct (Z.eqb_spec m dr); [done|].
          destruct (Z.ltb_spec m dr); [|lia].
          by apply IHl'. }
      change (count_nodes (Node m (Node dl ll rl hl sl)
                (remove_recursive (Node dr lr rr hr sr) m) h s)
              = 1 + count_nodes (Node dl ll rl hl sl)
                + count_nodes (Node dr lr rr hr sr) - 1).
      change (1 + count_nodes (Node dl ll rl hl sl)
                + count_nodes (remove_recursive (Node dr lr rr hr sr) m)
              = 1 + count_nodes (Node dl ll rl hl sl)
                + count_nodes (Node dr lr rr hr sr) - 1).
      rewrite IHr by done. lia.
    + destruct (Z.ltb_spec value d).
      * intros Hs. simpl. rewrite IHl by done. lia.
      * intros Hs. rewrite Z.gtb_ltb.
        destruct (Z.ltb_spec d value); [|lia].
        simpl. rewrite IHr by done. lia.
Qed.

(** The counter only counts calls. *)
Lemma total_nodes_insert_all values :
  total_nodes (insert_all values) = Z.of_nat (length values).
Proof.
  unfold insert_all.
  assert (Hgen : ∀ t, total_nodes (fold_left insert values t)
                      = total_nodes t + Z.of_nat (length values)).
  { induction values as [|v vs IH]; intros t; simpl length; simpl fold_left.
    - lia.
    - rewrite IH. simpl. lia. }
  rewrite Hgen. simpl. lia.
Qed.

End TreeOperations.

(* ===================================================================== *)
(** * The tree: reachable states and the audit *)
(* ===================================================================== *)

Section TreeAudit.

Import BST.

Lemma run_keys_all (P : Z → Prop) ops :
  Forall P (inserted ops) → keys_all P (root (run ops)).
Proof.
  unfold run.
  assert (Hgen : ∀ t, keys_all P (root t) → Forall P (inserted ops) →
                      keys_all P (root (fold_left apply_op ops t))).
  { induction ops as [|o ops IH]; intros t Ht Hall; simpl; [done|].
    destruct o as [v|v]; simpl in Hall.
    - apply Forall_cons in Hall as [Hv Hall].
      apply IH; [|done]. by apply keys_all_insert.
    - apply IH; [|done]. by apply keys_all_remove. }
  by apply Hgen.
Qed.

(** As long as a client program never inserts [INT_MIN] or [INT_MAX], the
    ordering check of the audit passes in every state it reaches. *)
Lemma run_ordering_check ops :
  Forall (λ v, INT_MIN < v < INT_MAX) (inserted ops) →
  is_valid_bst (audit (run ops)) = true.
Proof.
  intros Hall. simpl. apply check_bst_recursive_true. split.
  - apply run_bst.
  - by apply run_keys_all.
Qed.

(** Every pass of [insert_recursive] through a node, on the way to
    another key, leaves that node with a [subtree_size] one above the rule
    and with the sum instead of the maximum in [height]. *)
Lemma insert_recursive_recomputed d l r h s value :
  value ≠ d →
  ∃ l' r', insert_recursive (Node d l r h s) value
           = Node d l' r' (height_or_0 l' + height_or_0 r')
                          (1 + size_or_0 l' + size_or_0 r' + 1)
           ∧ check_subtree_sizes (insert_recursive (Node d l r h s) value) = false.
Proof.
  intros Hne. simpl.
  destruct (Z.ltb_spec value d); [|rewrite Z.gtb_ltb; destruct (Z.ltb_spec d value); [|lia]].
  - eexists _, _. split; [reflexivity|]. simpl. unfold insert_size.
    destruct (Z.eqb_spec (1 + size_or_0 (insert_recursive l value) + size_or_0 r + 1)
                (1 + size_or_0 (insert_recursive l value) + size_or_0 r)); [lia|done].
  - eexists _, _. split; [reflexivity|]. simpl. unfold insert_size.
    destruct (Z.eqb_spec (1 + size_or_0 l + size_or_0 (insert_recursive r value) + 1)
                (1 + size_or_0 l + size_or_0 (insert_recursive r value))); [lia|done].
Qed.

(** The key of the root never changes under insertions. *)
Lemma insert_all_root_key v values :
  ∃ l r h s, root (insert_all (v :: values)) = Node v l r h s.
Proof.
  induction values as [|w ws IH] using rev_ind.
  - by eexists _, _, _, _.
  - destruct IH as (l & r & h & s & IH).
    unfold insert_all in *. rewrite app_comm_cons, fold_left_app. simpl in *.
    rewrite IH. simpl. repeat case_match; by eexists _, _, _, _.
Qed.

(** With two or more distinct keys the last insertion passes through the
    root, so the size check of the audit fails. *)
Lemma insert_all_sizes_fail v values w :
  v ≠ w → sizes_correct (audit (insert_all (v :: values ++ [w]))) = false.
Proof.
  intros Hne. destruct (insert_all_root_key v values) as (l & r & h & s & Hroot).
  unfold insert_all in *. rewrite app_comm_cons, fold_left_app. simpl in *.
  rewrite Hroot.
  by destruct (insert_recursive_recomputed v l r h s w) as (? & ? & _ & ->).
Qed.

(** With pairwise distinct keys every insertion adds a node: the fresh
    count agrees with [total_nodes], and [search] finds exactly the keys
    inserted. *)
Lemma insert_all_distinct values :
  NoDup values →
  count_nodes (root (insert_all values)) = Z.of_nat (length values)
  ∧ ∀ k, search (insert_all values) k = true ↔ k ∈ values.
Proof.
  induction values as [|v vs IH] using rev_ind; intros Hnd.
  - split; [done|]. intros k. split; [done|]. by intros ?%elem_of_nil.
  - apply NoDup_app in Hnd as (Hvs & Hdisj & _).
    destruct (IH Hvs) as [IHc IHs].
    unfold insert_all, search in *. rewrite fold_left_app. simpl. split.
    + rewrite insert_recursive_absent_count.
      * rewrite IHc, length_app. simpl. lia.
      * apply not_true_is_false. intros Hs. apply IHs in Hs.
        apply (Hdisj v Hs). by left.
    + intros k. rewrite search_insert_recursive, orb_true_iff, IHs.
      rewrite elem_of_app, list_elem_of_singleton, Z.eqb_eq. tauto.
Qed.

(** A run of insertions is a client program. *)
Lemma insert_all_run values : insert_all values = run (map Insert values).
Proof.
  unfold insert_all, run. generalize empty_tree.
  induction values as [|v vs IH]; intros t; simpl; [done|]. apply IH.
Qed.

Lemma inserted_map_Insert values : inserted (map Insert values) = values.
Proof. induction values as [|v vs IH]; simpl; [done|]. by rewrite IH. Qed.

End TreeAudit.

(* ===================================================================== *)
(** * The tree: the claims *)
(* ===================================================================== *)

(** Claim C1, at the input that refutes it.  After [insert(50)] and
    [insert(30)] the root, which lies on the insertion path of 30, caches
    [subtree_size = 3] and [height = 1], where the rule
    [1 + size(left) + size(right)], [1 + max(height(left), height(right))]
    gives 2 and 2. *)
Theorem insert_cached_fields_off :
  BST.root (BST.insert_all [50; 30])
  = BST.Node 50 (BST.Node 30 BST.nullptr BST.nullptr 1 1) BST.nullptr 1 3
  ∧ 1 + BST.size_or_0 (BST.Node 30 BST.nullptr BST.nullptr 1 1)
      + BST.size_or_0 BST.nullptr = 2
  ∧ 1 + Z.max (BST.height_or_0 (BST.Node 30 BST.nullptr BST.nullptr 1 1))
              (BST.height_or_0 BST.nullptr) = 2
  ∧ cached_fields_ok (BST.root (BST.insert_all [50; 30])) = false.
Proof. vm_compute. repeat split. Qed.

(** Claim C3, at the inputs that refute it.  A second [insert(5)] leaves
    the node graph and every search result as they were, but moves
    [total_nodes] from 1 to 2 with one node in the tree.  After
    [insert 50, insert 30, insert 20, remove 30] a second [insert(20)]
    also rewrites the cached [subtree_size] of the root, from 5 to 3. *)
Theorem insert_duplicate_counts :
  let t := BST.insert BST.empty_tree 5 in
  BST.search t 5 = true
  ∧ BST.root (BST.insert t 5) = BST.root t
  ∧ BST.total_nodes t = 1
  ∧ BST.total_nodes (BST.insert t 5) = 2
  ∧ BST.count_nodes (BST.root (BST.insert t 5)) = 1
  ∧ let u := BST.run [BST.Insert 50; BST.Insert 30; BST.Insert 20; BST.Remove 30] in
    BST.search u 20 = true
    ∧ BST.root u
      = BST.Node 50 (BST.Node 20 BST.nullptr BST.nullptr 1 1) BST.nullptr 1 5
    ∧ BST.root (BST.insert u 20)
      = BST.Node 50 (BST.Node 20 BST.nullptr BST.nullptr 1 1) BST.nullptr 1 3.
Proof. vm_compute. repeat split. Qed.

(** What does hold of a duplicate insertion, for every tree: keys, links
    and all search results are kept; the counter is not. *)
Lemma insert_present (t : BST.BinarySearchTree) value :
  BST.search t value = true →
  shape (BST.root (BST.insert t value)) = shape (BST.root t)
  ∧ (∀ k, BST.search (BST.insert t value) k = BST.search t k)
  ∧ BST.total_nodes (BST.insert t value) = BST.total_nodes t + 1.
Proof.
  intros Hs. unfold BST.search in *. simpl.
  pose proof (insert_recursive_present_shape _ _ Hs) as Hshape.
  split; [done|]. split; [|done].
  intros k. by rewrite <- search_recursive_shape, Hshape, search_recursive_shape.
Qed.

(** Claim C4, at the input that refutes it.  [remove(100)] on the tree
    holding only 50 leaves the node graph as it was and still takes
    [total_nodes] from 1 to 0, after which the count check of the audit
    fails; on the empty tree the counter becomes -1.  [remove] returns
    nothing, so the caller cannot tell the two outcomes apart. *)
Theorem remove_absent_counts :
  let t := BST.insert BST.empty_tree 50 in
  BST.search t 100 = false
  ∧ BST.root (BST.remove t 100) = BST.root t
  ∧ BST.total_nodes t = 1
  ∧ BST.total_nodes (BST.remove t 100) = 0
  ∧ BST.count_nodes (BST.root (BST.remove t 100)) = 1
  ∧ BST.count_correct (BST.audit (BST.remove t 100)) = false
  ∧ BST.total_nodes (BST.remove BST.empty_tree 100) = -1.
Proof. vm_compute. repeat split. Qed.

(** What does hold of removing an absent key, for every tree: the whole
    node graph, cached fields included, is kept; the counter is not. *)
Lemma remove_absent (t : BST.BinarySearchTree) value :
  BST.search t value = false →
  BST.root (BST.remove t value) = BST.root t
  ∧ BST.total_nodes (BST.remove t value) = BST.total_nodes t - 1.
Proof.
  intros Hs. split; [|done]. by apply remove_recursive_absent.
Qed.

(** Claim C5, at the inputs that refute it.  After the distinct keys 50
    and 30 the audit reports the ordering and the count as correct and the
    subtree sizes as wrong, so [check_bst_invariant] is false; the same
    holds of the eight keys of the demonstration. *)
Theorem insert_distinct_audit_fails :
  BST.audit (BST.insert_all [50; 30]) = BST.mkReport true false true
  ∧ BST.check_bst_invariant (BST.insert_all [50; 30]) = false
  ∧ BST.total_nodes (BST.insert_all [50; 30]) = 2
  ∧ BST.audit (BST.insert_all [50; 30; 70; 20; 40; 60; 80; 10])
    = BST.mkReport true false true
  ∧ BST.total_nodes (BST.insert_all [50; 30; 70; 20; 40; 60; 80; 10]) = 8.
Proof. vm_compute. repeat split. Qed.

(** What does hold after insertions of pairwise distinct keys: the
    counter and the fresh count both equal the number of keys, the count
    check passes, the ordering check passes when no key is [INT_MIN] or
    [INT_MAX], and the size check fails as soon as there are two keys. *)
Lemma insert_all_audit values :
  NoDup values →
  BST.total_nodes (BST.insert_all values) = Z.of_nat (length values)
  ∧ BST.count_correct (BST.audit (BST.insert_all values)) = true
  ∧ (Forall (λ v, INT_MIN < v < INT_MAX) values →
     BST.is_valid_bst (BST.audit (BST.insert_all values)) = true)
  ∧ ((2 ≤ length values)%nat →
     BST.sizes_correct (BST.audit (BST.insert_all values)) = false).
Proof.
  intros Hnd. pose proof (total_nodes_insert_all values) as Htot.
  destruct (insert_all_distinct values Hnd) as [Hcount _].
  split; [done|]. split; [|split].
  - simpl. rewrite Hcount, Htot. apply Z.eqb_refl.
  - intros Hall.
    rewrite insert_all_run. apply run_ordering_check.
    by rewrite inserted_map_Insert.
  - intros Hlen. destruct values as [|v vs]; [simpl in Hlen; lia|].
    destruct vs as [|w ws _] using rev_ind; [simpl in Hlen; lia|].
    apply insert_all_sizes_fail.
    apply NoDup_cons in Hnd as [Hv _]. intros ->. apply Hv.
    apply elem_of_app. right. by left.
Qed.

(** Claim C7, at the inputs that refute it.  After [insert(50)],
    [insert(30)], [remove(30)] the key is gone and [total_nodes] has gone
    down by one, but the audit reports the subtree sizes as wrong: the
    root, now a leaf, still caches [subtree_size = 3].  The same holds of
    the demonstration (eight inserts, then [remove(30)]).  Removal alone is
    enough: on a tree whose cached fields follow the rule, [remove(30)]
    leaves the root with the size it had before. *)
Theorem remove_present_audit_fails :
  let t := BST.insert_all [50; 30] in
  BST.search t 30 = true
  ∧ BST.search (BST.remove t 30) 30 = false
  ∧ BST.total_nodes (BST.remove t 30) = BST.total_nodes t - 1
  ∧ BST.root (BST.remove t 30) = BST.Node 50 BST.nullptr BST.nullptr 1 3
  ∧ BST.audit (BST.remove t 30) = BST.mkReport true false true
  ∧ BST.check_bst_invariant (BST.remove t 30) = false
  ∧ BST.audit (BST.remove (BST.insert_all [50; 30; 70; 20; 40; 60; 80; 10]) 30)
    = BST.mkReport true false true
  ∧ let good := BST.Node 50 (BST.Node 30 BST.nullptr BST.nullptr 1 1) BST.nullptr 2 2 in
    cached_fields_ok good = true
    ∧ BST.check_subtree_sizes good = true
    ∧ BST.remove_recursive good 30 = BST.Node 50 BST.nullptr BST.nullptr 2 2
    ∧ BST.check_subtree_sizes (BST.remove_recursive good 30) = false.
Proof. vm_compute. repeat split. Qed.

(** What does hold of removing a present key from an ordered tree: the
    key is no longer found, exactly one node is unlinked, the counter goes
    down by one and the order is kept. *)
Lemma remove_present (t : BST.BinarySearchTree) value :
  bst (BST.root t) → BST.search t value = true →
  BST.search (BST.remove t value) value = false
  ∧ BST.total_nodes (BST.remove t value) = BST.total_nodes t - 1
  ∧ BST.count_nodes (BST.root (BST.remove t value))
    = BST.count_nodes (BST.root t) - 1
  ∧ bst (BST.root (BST.remove t value)).
Proof.
  intros Hb Hs. unfold BST.search in *. simpl. repeat split.
  - by apply search_recursive_absent, remove_recursive_gone.
  - by apply remove_recursive_present_count.
  - by apply bst_remove.
Qed.

(** Claim C10, at the inputs that refute it.  The tree holding only
    [INT_MIN] (or only [INT_MAX]) is ordered, yet the ordering check of the
    audit, which starts from the bounds [INT_MIN] and [INT_MAX] and rejects
    a key equal to either, reports a violation.  ([run_bst] shows that the
    order itself holds in every reachable state, and [run_ordering_check]
    that the check passes whenever neither extreme was inserted.) *)
Theorem ordering_check_rejects_extreme_keys :
  bst (BST.root (BST.run [BST.Insert INT_MIN]))
  ∧ BST.is_valid_bst (BST.audit (BST.run [BST.Insert INT_MIN])) = false
  ∧ bst (BST.root (BST.run [BST.Insert INT_MAX]))
  ∧ BST.is_valid_bst (BST.audit (BST.run [BST.Insert INT_MAX])) = false
  ∧ bst (BST.root (BST.run [BST.Insert 0; BST.Insert INT_MIN; BST.Remove 0]))
  ∧ BST.is_valid_bst
      (BST.audit (BST.run [BST.Insert 0; BST.Insert INT_MIN; BST.Remove 0])) = false.
Proof. vm_compute. repeat split. Qed.

(* ===================================================================== *)
(** * The priority queue: further properties *)
(* ===================================================================== *)

Section HeapExtraction.

Variable is_max_heap : bool.

Lemma valid_refl a : PQ.valid is_max_heap a a = true.
Proof. unfold PQ.valid; destruct is_max_heap; lia. Qed.

(** In a heap the root is no worse than any other element. *)
Lemma root_best (heap : list Z) i :
  heap_ordered is_max_heap heap → (i < length heap)%nat →
  PQ.valid is_max_heap (PQ.at_ heap 0) (PQ.at_ heap i) = true.
Proof.
  intros Hh. induction i as [i IH] using lt_wf_ind. intros Hi.
  destruct (decide (i = 0%nat)) as [->|Hne]; [apply valid_refl|].
  pose proof (parent_lt i ltac:(lia)) as Hp.
  apply valid_trans with (PQ.at_ heap (parent i)).
  - apply IH; lia.
  - apply Hh. lia.
Qed.

Lemma root_best_elem (heap : list Z) x :
  heap_ordered is_max_heap heap → x ∈ heap →
  PQ.valid is_max_heap (PQ.at_ heap 0) x = true.
Proof.
  intros Hh [i Hi]%list_elem_of_lookup.
  rewrite <- (list_lookup_total_correct _ _ _ Hi).
  apply root_best; [done|]. by eapply lookup_lt_Some.
Qed.

(** [heap_down] past the end of the vector has no child to look at. *)
Lemma heap_down_perm_any (heap : list Z) index :
  PQ.heap_down is_max_heap heap index ≡ₚ heap.
Proof.
  destruct (Nat.lt_ge_cases index (length heap)) as [Hlt|Hge].
  - by apply heap_down_perm.
  - funelim (PQ.heap_down is_max_heap heap index); [done|].
    destruct (heap_down_target_range is_max_heap heap index) as [?|?]; [done|lia].
Qed.

(** A successful [extract_top], whatever the shape of the vector. *)
Lemma extract_top_inr (heap : list Z) top heap' :
  PQ.extract_top is_max_heap heap = inr (top, heap') →
  top = PQ.at_ heap 0 ∧ top :: heap' ≡ₚ heap ∧ length heap = S (length heap').
Proof.
  destruct heap as [|x rest]; [done|].
  destruct rest as [|lst mid _] using rev_ind.
  - rewrite extract_top_singleton. by intros [= <- <-].
  - rewrite extract_top_cons. intros [= <- <-].
    assert (Hp : (if (3 <? length (lst :: mid))%nat
                  then PQ.heap_down is_max_heap (lst :: mid) 0
                  else lst :: mid) ≡ₚ lst :: mid).
    { case_match; [|done]. apply heap_down_perm_any. }
    split; [done|]. split.
    + rewrite Hp. constructor. by rewrite Permutation_app_comm.
    + rewrite Hp. simpl. rewrite length_app. simpl. lia.
Qed.

Lemma extract_top_nonempty (heap : list Z) :
  heap ≠ [] → ∃ top heap', PQ.extract_top is_max_heap heap = inr (top, heap').
Proof.
  destruct heap as [|x rest]; [done|]. intros _.
  unfold PQ.extract_top. simpl. by eexists _, _.
Qed.

(** The values [extract_n] returns were in the heap, and there are at most
    [n] of them. *)
Lemma extract_n_elem n (heap : list Z) x :
  x ∈ (PQ.extract_n is_max_heap n heap).1 → x ∈ heap.
Proof.
  revert heap. induction n as [|n IH]; intros heap; simpl.
  - by intros ?%elem_of_nil.
  - destruct (PQ.extract_top is_max_heap heap) as [e|[top heap']] eqn:Hx; simpl.
    + by intros ?%elem_of_nil.
    + destruct (extract_top_inr _ _ _ Hx) as (_ & Hperm & _).
      specialize (IH heap').
      destruct (PQ.extract_n is_max_heap n heap') as [tops rest]. simpl in *.
      rewrite <- Hperm. intros [->|Hin]%elem_of_cons; [by left|].
      right. by apply IH.
Qed.

Lemma extract_n_length n (heap : list Z) :
  (length (PQ.extract_n is_max_heap n heap).1 ≤ n)%nat.
Proof.
  revert heap. induction n as [|n IH]; intros heap; simpl; [done|].
  destruct (PQ.extract_top is_max_heap heap) as [e|[top heap']]; simpl; [lia|].
  specialize (IH heap').
  destruct (PQ.extract_n is_max_heap n heap') as [tops rest]. simpl in *. lia.
Qed.

Lemma extract_n_in_order n (heap : list Z) :
  heap_ordered is_max_heap heap → (n + 2 ≤ length heap)%nat →
  in_order is_max_heap (PQ.extract_n is_max_heap n heap).1.
Proof.
  unfold in_order. revert heap. induction n as [|n IH]; intros heap Hh Hlen; simpl.
  - constructor.
  - destruct (PQ.extract_top is_max_heap heap) as [e|[top heap']] eqn:Hx; simpl.
    + constructor.
    + destruct (extract_top_inr _ _ _ Hx) as (Htop & Hperm & Hl).
      pose proof (extract_n_elem n heap') as Hsub.
      pose proof (extract_n_length n heap') as Hshort.
      specialize (IH heap').
      destruct (PQ.extract_n is_max_heap n heap') as [tops rest]. simpl in *.
      constructor.
      * destruct (decide (4 < length heap)%nat) as [Hbig|Hsmall].
        -- apply IH; [|lia]. eapply extract_top_ordered; [done| |done]. lia.
        -- destruct tops as [|a [|b tops]]; simpl in Hshort; [constructor| |lia].
           constructor; constructor.
      * destruct tops as [|a tops]; constructor.
        rewrite Htop. apply root_best_elem; [done|].
        rewrite <- Hperm. right. apply Hsub. by left.
Qed.

Lemma extract_n_drain (heap : list Z) k :
  PQ.extract_n is_max_heap (length heap + k) heap
  = PQ.extract_n is_max_heap (length heap) heap
  ∧ (PQ.extract_n is_max_heap (length heap) heap).2 = []
  ∧ (PQ.extract_n is_max_heap (length heap) heap).1 ≡ₚ heap.
Proof.
  remember (length heap) as n eqn:Hn. revert heap Hn.
  induction n as [|n IH]; intros heap Hn.
  - destruct heap; [|done]. simpl. by destruct k.
  - destruct (extract_top_nonempty heap) as (top & heap' & Hx).
    { by destruct heap. }
    destruct (extract_top_inr _ _ _ Hx) as (_ & Hperm & Hl).
    simpl. rewrite Hx.
    destruct (IH heap' ltac:(lia)) as (IH1 & IH2 & IH3). rewrite IH1.
    destruct (PQ.extract_n is_max_heap n heap') as [tops rest]. simpl in *.
    repeat split; [done|]. by rewrite IH3.
Qed.

End HeapExtraction.


(** X1.  [insert] keeps the heap order of any heap it is given, not only of
    one built from scratch: if the check passes before the call, it passes
    after it. *)
Theorem heap_insert_keeps_order (is_max_heap : bool) (heap : list Z) (value : Z) :
  PQ.check_heap_property is_max_heap heap = true →
  PQ.check_heap_property is_max_heap (PQ.insert is_max_heap heap value) = true.
Proof.
  intros Hc. apply check_heap_property_true, insert_ordered.
  by apply check_heap_property_true.
Qed.

Lemma heap_insert_keeps_order_witness :
  PQ.check_heap_property false [2; 6; 4] = true
  ∧ PQ.check_heap_property false (PQ.insert false [2; 6; 4] 1) = true.
Proof.
  split; [reflexivity|].
  apply (heap_insert_keeps_order false [2; 6; 4] 1). reflexivity.
Defined.

(** X2.  [insert] adds the value and nothing else: on any vector, heap or
    not, the result holds the old elements and the new one, each as often
    as before, and is one longer. *)
Theorem heap_insert_permutation (is_max_heap : bool) (heap : list Z) (value : Z) :
  PQ.insert is_max_heap heap value ≡ₚ value :: heap
  ∧ length (PQ.insert is_max_heap heap value) = S (length heap).
Proof.
  pose proof (insert_perm is_max_heap heap value) as Hp.
  split; [done|]. by rewrite Hp.
Qed.

(** X3.  [heap_down] only rearranges: from any index, in range or not, on
    any vector, the result is a permutation of the vector. *)
Theorem heap_down_permutation (is_max_heap : bool) (heap : list Z) (index : nat) :
  PQ.heap_down is_max_heap heap index ≡ₚ heap
  ∧ length (PQ.heap_down is_max_heap heap index) = length heap.
Proof.
  pose proof (heap_down_perm_any is_max_heap heap index) as Hp.
  split; [done|]. by rewrite Hp.
Qed.

(** X4.  [extract_top] keeps the heap order when the heap has one, two or
    more than four elements before the call: if the check passes before,
    it passes on the heap left behind. *)
Theorem extract_top_keeps_order (is_max_heap : bool) (heap : list Z) top heap' :
  PQ.check_heap_property is_max_heap heap = true →
  (length heap ≤ 2 ∨ 4 < length heap)%nat →
  PQ.extract_top is_max_heap heap = inr (top, heap') →
  PQ.check_heap_property is_max_heap heap' = true.
Proof.
  intros Hc Hlen Hx. apply check_heap_property_true.
  eapply extract_top_ordered; [|exact Hlen|exact Hx].
  by apply check_heap_property_true.
Qed.

Lemma extract_top_keeps_order_witness :
  PQ.check_heap_property true [7; 6; 5; 2; 3] = true.
Proof.
  apply (extract_top_keeps_order true [9; 7; 5; 2; 6; 3] 9 [7; 6; 5; 2; 3]).
  - reflexivity.
  - right. simpl. lia.
  - vm_compute. reflexivity.
Defined.



(** X6.  What [check_heap_property] decides: it returns true exactly when
    every element other than the root is no better than the element at its
    parent index [(i - 1) / 2]. *)
Theorem check_heap_property_decides (is_max_heap : bool) (heap : list Z) :
  PQ.check_heap_property is_max_heap heap = true ↔
  ∀ i, (0 < i < length heap)%nat →
       PQ.valid is_max_heap (PQ.at_ heap ((i - 1) / 2)) (PQ.at_ heap i) = true.
Proof. apply check_heap_property_true. Qed.

(** X7.  As many [extract_top] calls as the heap has elements return every
    element exactly once and leave the heap empty; further calls raise the
    exception and change nothing.  This holds of any vector, heap or not. *)
Theorem extract_n_drains (is_max_heap : bool) (heap : list Z) (k : nat) :
  (PQ.extract_n is_max_heap (length heap) heap).1 ≡ₚ heap
  ∧ (PQ.extract_n is_max_heap (length heap) heap).2 = []
  ∧ PQ.extract_n is_max_heap (length heap + k) heap
    = PQ.extract_n is_max_heap (length heap) heap
  ∧ PQ.extract_top is_max_heap (PQ.extract_n is_max_heap (length heap) heap).2
    = inl PQ.EmptyContainer.
Proof.
  destruct (extract_n_drain is_max_heap heap k) as (H1 & H2 & H3).
  repeat split; try done. by rewrite H2.
Qed.

(** X8.  From a heap that passes the check, all [extract_top] calls but the
    last two return their values in order (non-increasing for a max-first
    heap, non-decreasing for a min-first heap). *)
Theorem extract_n_prefix_in_order (is_max_heap : bool) (heap : list Z) (n : nat) :
  PQ.check_heap_property is_max_heap heap = true →
  (n + 2 ≤ length heap)%nat →
  in_order is_max_heap (PQ.extract_n is_max_heap n heap).1.
Proof.
  intros Hc Hlen. apply extract_n_in_order; [|done].
  by apply check_heap_property_true.
Qed.

Lemma extract_n_prefix_in_order_witness :
  in_order true (PQ.extract_n true 6 [15; 10; 12; 7; 8; 2; 3; 5]).1.
Proof.
  apply (extract_n_prefix_in_order true [15; 10; 12; 7; 8; 2; 3; 5] 6).
  - reflexivity.
  - simpl. lia.
Defined.

(* ===================================================================== *)
(** * The tree: further properties *)
(* ===================================================================== *)

Section TreeFurther.

Import BST.

(** [search] finds the key [find_min] returns. *)
Lemma search_find_min d l r h s :
  bst (Node d l r h s) →
  search_recursive (Node d l r h s) (data_of (find_min (Node d l r h s))) = true.
Proof.
  revert d r h s. induction l as [|dl ll IHll rl _ hl sl]; intros d r h s Hb.
  - simpl. by rewrite Z.eqb_refl.
  - destruct Hb as (Hl & _ & Hbl & _).
    pose proof (find_min_keys_all _ _ _ _ _ _ Hl) as Hlt. cbv beta in Hlt.
    change (find_min (Node d (Node dl ll rl hl sl) r h s))
      with (find_min (Node dl ll rl hl sl)).
    set (m := data_of (find_min (Node dl ll rl hl sl))) in *.
    change (search_recursive (Node d (Node dl ll rl hl sl) r h s) m)
      with (if m =? d then true
            else if m <? d then search_recursive (Node dl ll rl hl sl) m
            else search_recursive r m).
    destruct (Z.eqb_spec m d); [done|].
    destruct (Z.ltb_spec m d); [|lia].
    by apply IHll.
Qed.

Lemma search_recursive_out_of_range (P : Z → Prop) node k :
  keys_all P node → ¬ P k → search_recursive node k = false.
Proof.
  intros Hall Hk. apply search_recursive_absent.
  eapply keys_all_impl; [|exact Hall]. simpl. intros x Hx ->. done.
Qed.

(** In an ordered tree, removal takes the removed key out of what [search]
    finds and nothing else. *)
Lemma search_remove_recursive node value k :
  bst node →
  search_recursive (remove_recursive node value) k
  = negb (k =? value) && search_recursive node k.
Proof.
  revert value. induction node as [|d l IHl r IHr h s]; intros value Hb.
  - simpl. by rewrite andb_false_r.
  - destruct Hb as (Hl & Hr & Hbl & Hbr).
    assert (Hlk : d ≤ k → search_recursive l k = false).
    { intros ?. apply (search_recursive_out_of_range _ _ _ Hl). lia. }
    assert (Hrk : k ≤ d → search_recursive r k = false).
    { intros ?. apply (search_recursive_out_of_range _ _ _ Hr). lia. }
    cbn [remove_recursive].
    destruct (Z.ltb_spec value d); [|rewrite Z.gtb_ltb; destruct (Z.ltb_spec d value)].
    + cbn [search_recursive]. rewrite IHl by done.
      destruct (Z.eqb_spec k d), (Z.eqb_spec k value), (Z.ltb_spec k d);
        simpl; try done; try lia.
    + cbn [search_recursive]. rewrite IHr by done.
      destruct (Z.eqb_spec k d), (Z.eqb_spec k value), (Z.ltb_spec k d);
        simpl; try done; try lia.
    + assert (value = d) as -> by lia.
      destruct l as [|dl ll rl hl sl].
      { cbn [search_recursive].
        destruct (Z.eqb_spec k d), (Z.ltb_spec k d); simpl; try done; try lia.
        - apply Hrk. lia.
        - apply Hrk. lia. }
      destruct r as [|dr lr rr hr sr].
      { cbn [search_recursive].
        destruct (Z.eqb_spec k d), (Z.ltb_spec k d); simpl; try done; try lia.
        - apply Hlk. lia.
        - apply Hlk. lia. }
      pose proof (find_min_keys_all _ _ _ _ _ _ Hr) as Hm. cbv beta in Hm.
      pose proof (find_min_lower_bound _ _ _ _ _ Hbr) as Hlow.
      pose proof (search_find_min _ _ _ _ _ Hbr) as Hfound.
      pose proof (IHr (data_of (find_min (Node dr lr rr hr sr))) Hbr) as IH.
      set (m := data_of (find_min (Node dr lr rr hr sr))) in *.
      set (L := Node dl ll rl hl sl) in *. set (R := Node dr lr rr hr sr) in *.
      change (search_recursive (Node m L (remove_recursive R m) h s) k
              = negb (k =? d) && search_recursive (Node d L R h s) k).
      cbn [search_recursive]. rewrite IH.
      assert (HRk : k < m → search_recursive R k = false).
      { intros ?. apply (search_recursive_out_of_range _ _ _ Hlow). lia. }
      destruct (Z.eqb_spec k m) as [->|Hkm].
      * destruct (Z.eqb_spec m d), (Z.ltb_spec m d); simpl; try lia. done.
      * destruct (Z.ltb_spec k m), (Z.eqb_spec k d), (Z.ltb_spec k d);
          simpl; try done; try lia.
        -- change (search_recursive L k = false). apply Hlk. lia.
        -- change (search_recursive L k = search_recursive R k).
           rewrite HRk by lia. apply Hlk. lia.
Qed.

Lemma count_nodes_shape node : count_nodes (shape node) = count_nodes node.
Proof.
  induction node as [|d l IHl r IHr h s]; simpl; [done|]. by rewrite IHl, IHr.
Qed.

Lemma count_nodes_nonneg node : 0 ≤ count_nodes node.
Proof. induction node; simpl; lia. Qed.

(** An insertion adds a node exactly when [search] did not find the key. *)
Lemma insert_recursive_count node value :
  count_nodes (insert_recursive node value)
  = count_nodes node + (if search_recursive node value then 0 else 1).
Proof.
  destruct (search_recursive node value) eqn:Hs.
  - rewrite <- count_nodes_shape, insert_recursive_present_shape by done.
    rewrite count_nodes_shape. lia.
  - by apply insert_recursive_absent_count.
Qed.

(** A removal from an ordered tree unlinks a node exactly when [search]
    found the key. *)
Lemma remove_recursive_count node value :
  bst node →
  count_nodes (remove_recursive node value)
  = count_nodes node - (if search_recursive node value then 1 else 0).
Proof.
  intros Hb. destruct (search_recursive node value) eqn:Hs.
  - by apply remove_recursive_present_count.
  - rewrite remove_recursive_absent by done. lia.
Qed.

Lemma insert_recursive_not_null node value :
  insert_recursive node value ≠ nullptr.
Proof. destruct node; simpl; [done|]. by repeat case_match. Qed.

Lemma insert_built_insert node value :
  insert_built node → insert_built (insert_recursive node value).
Proof.
  induction node as [|d l IHl r IHr h s]; simpl.
  - intros _. by left.
  - intros Hb.
    assert (Hl : insert_built l) by (destruct Hb as [(-> & _)|(_ & _ & _ & ? & _)]; done).
    assert (Hr : insert_built r) by (destruct Hb as [(_ & -> & _)|(_ & _ & _ & _ & ?)]; done).
    destruct (value <? d); [|destruct (value >? d)]; simpl.
    + right. repeat split; auto. left. apply insert_recursive_not_null.
    + right. repeat split; auto. right. apply insert_recursive_not_null.
    + done.
Qed.

Lemma insert_all_built values : insert_built (root (insert_all values)).
Proof.
  induction values as [|v vs IH] using rev_ind; [done|].
  unfold insert_all in *. rewrite fold_left_app. simpl.
  by apply insert_built_insert.
Qed.

(** On such a tree the size check rejects every node that has a child. *)
Lemma insert_built_sizes node :
  insert_built node →
  check_subtree_sizes node = (count_nodes node <=? 1).
Proof.
  destruct node as [|d l r h s]; simpl; [done|].
  intros [(-> & -> & -> & ->)|(Hne & _ & -> & _ & _)]; [done|].
  unfold insert_size.
  destruct (Z.eqb_spec (1 + size_or_0 l + size_or_0 r + 1)
              (1 + size_or_0 l + size_or_0 r)); [lia|]. simpl.
  pose proof (count_nodes_nonneg l). pose proof (count_nodes_nonneg r).
  symmetry. apply Z.leb_gt.
  destruct Hne as [Hne|Hne].
  - destruct l; [done|]. simpl in *.
    pose proof (count_nodes_nonneg l1). pose proof (count_nodes_nonneg l2). lia.
  - destruct r; [done|]. simpl in *.
    pose proof (count_nodes_nonneg r1). pose proof (count_nodes_nonneg r2). lia.
Qed.

(** ... and the cached fields count leaves: [height] is the number of
    leaves, [subtree_size] the number of nodes plus the number of nodes
    that have a child. *)
Lemma insert_built_fields node :
  insert_built node →
  height_or_0 node = leaves node
  ∧ size_or_0 node = 2 * count_nodes node - leaves node.
Proof.
  induction node as [|d l IHl r IHr h s]; [done|].
  intros [(-> & -> & -> & ->)|(Hne & -> & -> & Hl & Hr)]; [done|].
  destruct (IHl Hl) as [IHl1 IHl2], (IHr Hr) as [IHr1 IHr2].
  assert (Hlv : leaves (Node d l r (insert_height l r) (insert_size l r))
                = leaves l + leaves r).
  { destruct l, r; try done. by destruct Hne. }
  rewrite Hlv. cbn [height_or_0 size_or_0 count_nodes].
  unfold insert_height, insert_size. lia.
Qed.


(** One line per node. *)
Lemma print_recursive_length node prefix is_last :
  Z.of_nat (length (print_recursive node prefix is_last)) = count_nodes node.
Proof.
  revert prefix is_last.
  induction node as [|d l IHl r IHr h s]; intros prefix is_last; [done|].
  cbn [print_recursive count_nodes length].
  destruct l as [|dl ll rl hl sl], r as [|dr lr rr hr sr]; cbn [orb negb].
  - simpl. lia.
  - rewrite app_nil_r, Nat2Z.inj_succ, IHr. simpl. lia.
  - rewrite app_nil_l, Nat2Z.inj_succ, IHl. simpl. lia.
  - rewrite Nat2Z.inj_succ, length_app, Nat2Z.inj_add, IHl, IHr. lia.
Qed.

End TreeFurther.

Section TreeAsSet.

Import BST.

Lemma run_snoc ops o : run (ops ++ [o]) = apply_op (run ops) o.
Proof. unfold run. by rewrite fold_left_app. Qed.

Lemma key_set_snoc_insert ops v : key_set (ops ++ [Insert v]) = {[v]} ∪ key_set ops.
Proof. unfold key_set. by rewrite fold_left_app. Qed.

Lemma key_set_snoc_remove ops v : key_set (ops ++ [Remove v]) = key_set ops ∖ {[v]}.
Proof. unfold key_set. by rewrite fold_left_app. Qed.

(** In every reachable state [search] finds exactly the keys of the set
    the program describes. *)
Lemma run_search ops k : search (run ops) k = true ↔ k ∈ key_set ops.
Proof.
  induction ops as [|o ops IH] using rev_ind.
  - split; [done|]. by intros ?%not_elem_of_empty.
  - rewrite run_snoc. destruct o as [v|v]; unfold search in *; simpl.
    + rewrite key_set_snoc_insert, search_insert_recursive.
      rewrite orb_true_iff, Z.eqb_eq, IH. set_solver.
    + rewrite key_set_snoc_remove, search_remove_recursive by apply run_bst.
      rewrite andb_true_iff, negb_true_iff, Z.eqb_neq, IH. set_solver.
Qed.

Lemma run_search_bool ops k : search (run ops) k = bool_decide (k ∈ key_set ops).
Proof.
  destruct (search (run ops) k) eqn:Hs.
  - symmetry. by apply bool_decide_eq_true, run_search.
  - symmetry. apply bool_decide_eq_false. intros Hin%run_search. congruence.
Qed.

(** ... and holds one node per key of that set. *)
Lemma run_count ops : count_nodes (root (run ops)) = Z.of_nat (size (key_set ops)).
Proof.
  induction ops as [|o ops IH] using rev_ind; [done|].
  rewrite run_snoc. destruct o as [v|v]; simpl.
  - rewrite key_set_snoc_insert, insert_recursive_count, IH.
    fold (search (run ops) v). rewrite run_search_bool.
    case_bool_decide as Hin.
    + replace ({[v]} ∪ key_set ops) with (key_set ops) by set_solver. lia.
    + rewrite size_union by set_solver. rewrite size_singleton. lia.
  - rewrite key_set_snoc_remove, remove_recursive_count, IH by apply run_bst.
    fold (search (run ops) v). rewrite run_search_bool.
    case_bool_decide as Hin.
    + rewrite size_difference by set_solver. rewrite size_singleton.
      assert (size (key_set ops) ≠ 0%nat).
      { intros Hz%size_empty_inv. set_solver. }
      lia.
    + replace (key_set ops ∖ {[v]}) with (key_set ops) by set_solver. lia.
Qed.

End TreeAsSet.

(** X9.  In every state a client program reaches by [insert] and [remove]
    calls, [search] finds exactly the keys of the set the program
    describes (inserted and not removed since): the tree is a set of keys,
    whatever its counters say. *)
Theorem tree_search_is_membership (ops : list BST.op) (k : Z) :
  BST.search (BST.run ops) k = true ↔ k ∈ key_set ops.
Proof. apply run_search. Qed.

(** X10.  In every reachable state the tree holds exactly one node per key
    of that set: [count_nodes] of the root is the size of the set. *)
Theorem tree_count_is_cardinality (ops : list BST.op) :
  BST.count_nodes (BST.root (BST.run ops)) = Z.of_nat (size (key_set ops)).
Proof. apply run_count. Qed.


(** X12.  On any tree, ordered or not, [search] after [insert] finds the
    inserted key and otherwise answers as before. *)
Theorem search_after_insert (t : BST.BinarySearchTree) (value k : Z) :
  BST.search (BST.insert t value) k = (k =? value) || BST.search t k.
Proof. apply search_insert_recursive. Qed.

(** X13.  In every reachable state, [search] after [remove] no longer finds
    the removed key and otherwise answers as before, also when the removed
    node had two children. *)
Theorem search_after_remove (ops : list BST.op) (value k : Z) :
  BST.search (BST.remove (BST.run ops) value) k
  = negb (k =? value) && BST.search (BST.run ops) k.
Proof. apply search_remove_recursive, run_bst. Qed.

(** X14.  In every reachable state, [remove] leaves the node graph, cached
    fields included, exactly as it was if and only if [search] does not
    find the key. *)
Theorem remove_unchanged_iff_absent (ops : list BST.op) (value : Z) :
  BST.root (BST.remove (BST.run ops) value) = BST.root (BST.run ops)
  ↔ BST.search (BST.run ops) value = false.
Proof.
  split.
  - intros Heq. apply not_true_is_false. intros Hs.
    pose proof (remove_recursive_present_count _ value (run_bst ops) Hs) as Hc.
    simpl in Heq. rewrite Heq in Hc. lia.
  - apply remove_recursive_absent.
Qed.

(** X15.  On any tree, [insert] leaves keys and links as they were if and
    only if [search] already finds the key; otherwise it adds one node. *)
Theorem insert_unchanged_iff_present (t : BST.BinarySearchTree) (value : Z) :
  (shape (BST.root (BST.insert t value)) = shape (BST.root t)
   ↔ BST.search t value = true)
  ∧ BST.count_nodes (BST.root (BST.insert t value))
    = BST.count_nodes (BST.root t) + (if BST.search t value then 0 else 1).
Proof.
  split; [|apply insert_recursive_count].
  split.
  - intros Heq. apply not_false_iff_true. intros Hs.
    pose proof (insert_recursive_absent_count _ value Hs) as Hc.
    rewrite <- count_nodes_shape in Hc. simpl in Heq. rewrite Heq in Hc.
    rewrite count_nodes_shape in Hc. lia.
  - apply insert_recursive_present_shape.
Qed.

(** X16.  The ordering invariant holds in every reachable state, and every
    key in the tree is a value the program inserted. *)
Theorem run_ordered (ops : list BST.op) :
  bst (BST.root (BST.run ops))
  ∧ keys_all (λ k, k ∈ inserted ops) (BST.root (BST.run ops)).
Proof.
  split; [apply run_bst|]. apply run_keys_all. by apply Forall_forall.
Qed.

(** X17.  What [check_bst_recursive] decides: it returns true exactly when
    the subtree is ordered and all its keys lie strictly between the two
    bounds. *)
Theorem check_bst_recursive_decides (node : BST.node_ptr) (min_val max_val : Z) :
  BST.check_bst_recursive node min_val max_val = true ↔
  bst node ∧ keys_all (λ k, min_val < k < max_val) node.
Proof. apply check_bst_recursive_true. Qed.

(** X18.  The ordering verdict of the audit is true in every reachable
    state of a program that never inserts [INT_MIN] or [INT_MAX]. *)
Theorem ordering_check_in_range (ops : list BST.op) :
  Forall (λ v, INT_MIN < v < INT_MAX) (inserted ops) →
  BST.is_valid_bst (BST.audit (BST.run ops)) = true.
Proof. apply run_ordering_check. Qed.

Lemma ordering_check_in_range_witness :
  BST.is_valid_bst
    (BST.audit (BST.run [BST.Insert 50; BST.Insert 30; BST.Insert 70;
                         BST.Remove 50; BST.Insert (-4)])) = true.
Proof.
  apply (ordering_check_in_range
           [BST.Insert 50; BST.Insert 30; BST.Insert 70; BST.Remove 50; BST.Insert (-4)]).
  apply (bool_decide_unpack _). vm_compute. exact I.
Defined.

(** X19.  The count verdict of the audit follows the outcome of the call:
    from a reachable state in which it is true, it stays true across an
    [insert] exactly when the key was new, and across a [remove] exactly
    when the key was present. *)
Theorem count_check_step (ops : list BST.op) (value : Z) :
  BST.count_correct (BST.audit (BST.run ops)) = true →
  BST.count_correct (BST.audit (BST.insert (BST.run ops) value))
  = negb (BST.search (BST.run ops) value)
  ∧ BST.count_correct (BST.audit (BST.remove (BST.run ops) value))
    = BST.search (BST.run ops) value.
Proof.
  simpl. intros Hc%Z.eqb_eq. unfold BST.search.
  rewrite insert_recursive_count, remove_recursive_count by apply run_bst.
  rewrite <- Hc.
  destruct (BST.search_recursive (BST.root (BST.run ops)) value); simpl; split;
    first [apply Z.eqb_eq | apply Z.eqb_neq]; lia.
Qed.

Lemma count_check_step_witness :
  BST.count_correct (BST.audit (BST.insert (BST.run [BST.Insert 5; BST.Insert 3]) 5))
  = negb (BST.search (BST.run [BST.Insert 5; BST.Insert 3]) 5)
  ∧ BST.count_correct (BST.audit (BST.remove (BST.run [BST.Insert 5; BST.Insert 3]) 5))
    = BST.search (BST.run [BST.Insert 5; BST.Insert 3]) 5.
Proof.
  apply (count_check_step [BST.Insert 5; BST.Insert 3] 5). reflexivity.
Defined.

(** X20.  [find_min] on an ordered subtree returns its smallest key: a key
    that [search] finds there and that no key of the subtree is below. *)
Theorem find_min_is_minimum d l r h s :
  bst (BST.Node d l r h s) →
  BST.search_recursive (BST.Node d l r h s)
    (BST.data_of (BST.find_min (BST.Node d l r h s))) = true
  ∧ keys_all (λ k, BST.data_of (BST.find_min (BST.Node d l r h s)) ≤ k)
      (BST.Node d l r h s).
Proof.
  intros Hb. split; [by apply search_find_min | by apply find_min_lower_bound].
Qed.

Lemma find_min_is_minimum_witness :
  BST.data_of (BST.find_min (BST.root (BST.insert_all [50; 30; 70; 20; 40]))) = 20
  ∧ keys_all (λ k, 20 ≤ k) (BST.root (BST.insert_all [50; 30; 70; 20; 40])).
Proof.
  split; [reflexivity|].
  apply (find_min_is_minimum 50
           (BST.Node 30 (BST.Node 20 BST.nullptr BST.nullptr 1 1)
                        (BST.Node 40 BST.nullptr BST.nullptr 1 1) 2 4)
           (BST.Node 70 BST.nullptr BST.nullptr 1 1) 3 7).
  simpl. repeat split; lia.
Defined.

(** X21.  After any sequence of [insert] calls on a fresh tree, duplicates
    or not, the size check of the audit passes only while the tree has at
    most one node. *)
Theorem size_check_after_inserts (values : list Z) :
  BST.check_subtree_sizes (BST.root (BST.insert_all values))
  = (BST.count_nodes (BST.root (BST.insert_all values)) <=? 1).
Proof. apply insert_built_sizes, insert_all_built. Qed.

(** X22.  After any sequence of [insert] calls on a fresh tree, the cached
    [height] of the root is the number of leaves of the tree, and its
    cached [subtree_size] is twice the number of nodes minus the number of
    leaves. *)
Theorem cached_fields_after_inserts (values : list Z) :
  BST.height_or_0 (BST.root (BST.insert_all values))
  = leaves (BST.root (BST.insert_all values))
  ∧ BST.size_or_0 (BST.root (BST.insert_all values))
    = 2 * BST.count_nodes (BST.root (BST.insert_all values))
      - leaves (BST.root (BST.insert_all values)).
Proof. apply insert_built_fields, insert_all_built. Qed.

(** X23.  After inserting pairwise distinct values, none of them [INT_MIN]
    or [INT_MAX], into a fresh tree, the audit reports the ordering and the
    count as correct, and the sizes as correct only if there is at most one
    value. *)
Theorem audit_after_distinct_inserts (values : list Z) :
  NoDup values →
  Forall (λ v, INT_MIN < v < INT_MAX) values →
  BST.audit (BST.insert_all values)
  = BST.mkReport true (length values <=? 1)%nat true.
Proof.
  intros Hnd Hall.
  destruct (insert_all_audit values Hnd) as (_ & Hc & Ho & _).
  destruct (insert_all_distinct values Hnd) as [Hn _].
  pose proof (size_check_after_inserts values) as Hs. rewrite Hn in Hs.
  unfold BST.audit in *. simpl in *. rewrite Hc, (Ho Hall), Hs.
  f_equal. destruct (Nat.leb_spec (length values) 1); [apply Z.leb_le | apply Z.leb_gt]; lia.
Qed.

Lemma audit_after_distinct_inserts_witness :
  BST.audit (BST.insert_all [50; 30; 70]) = BST.mkReport true false true.
Proof.
  apply (audit_after_distinct_inserts [50; 30; 70]).
  - apply (bool_decide_unpack _). vm_compute. exact I.
  - apply (bool_decide_unpack _). vm_compute. exact I.
Defined.

(** X24.  [print_tree] writes the header line and then exactly one line per
    node of the tree. *)
Theorem print_tree_line_count (t : BST.BinarySearchTree) :
  Z.of_nat (length (BST.print_tree t)) = 1 + BST.count_nodes (BST.root t).
Proof.
  unfold BST.print_tree. cbn [length].
  rewrite Nat2Z.inj_succ, print_recursive_length. lia.
Qed.

